(** * ID3v2 tag parser (lib/parsers/v2parser): shallow embedding and properties

    The embedding follows the compiled parser: [parseV2Data], [parseV2Header],
    [calcTagSize], [calcFrameSize], [parseV2Frames] and [parseFrame].  The
    helpers of [../utils] and the constant tables of [../constants] are
    imported by the parser but are not part of it; they appear here as the
    interfaces [Utils] and [Tables]. *)

From Stdlib Require Import ZArith Ascii Lia.
From stdpp Require Import gmap list strings.

Open Scope Z_scope.

(** ** JavaScript values used by the parser *)

(** [IBytes] is [number[] | Uint8Array]: a sequence of numbers.  A
    [Uint8Array] holds only values in [0, 256); see [is_bytes]. *)
Definition bytes := list Z.

(** A JavaScript string is a sequence of UTF-16 code units. *)
Definition jsstring := list Z.

(** A number that may be [undefined] (an array read out of range). *)
Definition jsnum := option Z.

Definition str (s : string) : jsstring :=
  (λ a, Z.of_N (N_of_ascii a)) <$> String.list_ascii_of_string s.

Definition chr (a : ascii) : Z := Z.of_N (N_of_ascii a).

Definition is_byte (b : Z) : Prop := 0 ≤ b < 256.
Definition is_bytes (bs : bytes) : Prop := Forall is_byte bs.

#[global] Instance is_byte_dec (b : Z) : Decision (is_byte b).
Proof. unfold is_byte. apply _. Defined.

#[global] Instance is_bytes_dec (bs : bytes) : Decision (is_bytes bs).
Proof. unfold is_bytes. apply _. Defined.

(** [l.length] *)
Definition len {A} (l : list A) : Z := Z.of_nat (length l).

(** [l[i]]: [undefined] ([None]) out of range. *)
Definition get {A} (l : list A) (i : Z) : option A :=
  if i <? 0 then None else l !! Z.to_nat i.

(** The index normalisation of [Array.prototype.slice] and
    [TypedArray.prototype.slice]: a negative index counts from the end. *)
Definition relIndex (n i : Z) : Z :=
  if i <? 0 then Z.max (n + i) 0 else Z.min i n.

(** [l.slice(start, end)]; [None] for an omitted [end]. *)
Definition slice {A} (l : list A) (start : Z) (end_ : option Z) : list A :=
  let n := len l in
  let k := relIndex n start in
  let e := match end_ with None => n | Some e => relIndex n e end in
  take (Z.to_nat (e - k)) (drop (Z.to_nat k) l).

(** [x === 0] and [x !== 0] on a possibly undefined number. *)
Definition isZero (x : jsnum) : bool :=
  match x with Some 0 => true | _ => false end.

(** [(x & mask)]: [undefined] converts to 0. *)
Definition band (x : jsnum) (mask : Z) : Z :=
  match x with Some b => Z.land b mask | None => 0 end.

Definition strEq (a b : jsstring) : bool := bool_decide (a = b).

(** [s[0] === c] *)
Definition firstCharIs (s : jsstring) (c : ascii) : bool :=
  bool_decide (head s = Some (chr c)).

Fixpoint takeWhile {A} (p : A → bool) (l : list A) : list A :=
  match l with
  | [] => []
  | x :: l' => if p x then x :: takeWhile p l' else []
  end.

Fixpoint dropWhile {A} (p : A → bool) (l : list A) : list A :=
  match l with
  | [] => []
  | x :: l' => if p x then dropWhile p l' else l
  end.

(** *** The built-ins used for the content-type frame *)

(** [\d] *)
Definition isDigit (c : Z) : bool := (48 <=? c) && (c <=? 57).

(** The value of a string of decimal digits ([+s] on such a string, and the
    digit part of [parseInt(s, 10)]).  The values are exact integers here;
    JavaScript rounds those above 2^53 to a double, which is again above
    2^53, so that an index into a table is out of range either way. *)
Definition digitsValue (ds : jsstring) : Z :=
  foldl (λ acc c, acc * 10 + (c - 48)) 0 ds.

(** White space and line terminators skipped by [parseInt]. *)
Definition isStrWhiteSpace (c : Z) : bool :=
  bool_decide (c ∈ [9; 10; 11; 12; 13; 32; 160; 5760; 8232; 8233; 8239; 8287;
                    12288; 65279])
  || ((8192 <=? c) && (c <=? 8202)).

(** [parseInt(s, 10)]; [None] is [NaN].  Leading white space is dropped,
    then a sign, and the longest run of digits that follows is the number;
    what comes after the digits is ignored. *)
Definition parseInt10 (s : jsstring) : option Z :=
  let s1 := dropWhile isStrWhiteSpace s in
  let sign := if firstCharIs s1 "-" then -1 else 1 in
  let s2 := if firstCharIs s1 "-" || firstCharIs s1 "+" then drop 1 s1 else s1 in
  match takeWhile isDigit s2 with
  | [] => None
  | ds => Some (sign * digitsValue ds)
  end.

(** [s.match(/\(\d+\)/g)]: every match, left to right; the empty list stands
    for [null].  [open] holds the digits read since the last opening
    parenthesis, most recent first, while a match is in progress.  A failed
    attempt resumes after its parenthesis; the characters in between are
    digits, none of which starts a match, so the scan goes on at the failing
    character. *)
Fixpoint matchGroupsFrom (open : option jsstring) (s : jsstring) : list jsstring :=
  match s with
  | [] => []
  | c :: s' =>
      if c =? 40 then matchGroupsFrom (Some []) s'
      else match open with
           | Some ds =>
               if isDigit c then matchGroupsFrom (Some (c :: ds)) s'
               else if (c =? 41) && negb (bool_decide (ds = [])) then
                 ([40] ++ rev ds ++ [41]) :: matchGroupsFrom None s'
               else matchGroupsFrom None s'
           | None => matchGroupsFrom None s'
           end
  end.

Definition matchGroups (s : jsstring) : list jsstring := matchGroupsFrom None s.

(** [a.join(',')] where an [undefined] element ([None]) gives the empty
    string. *)
Fixpoint joinComma (a : list (option jsstring)) : jsstring :=
  match a with
  | [] => []
  | [x] => default [] x
  | x :: a' => default [] x ++ [44] ++ joinComma a'
  end.

(** ** The imported modules *)

(** [require("../utils")]: the byte-to-string decoders and the terminator
    scanners.  An omitted optional argument is [None]; the text encoding is
    read from the frame and may be [undefined]. *)
Class Utils := {
  readBytesToUTF8 : bytes → option Z → jsstring;
  readBytesToISO8859 : bytes → option Z → jsstring;
  (** a string or [null] *)
  readBytesToString : bytes → jsnum → option Z → option jsstring;
  getEndpointOfBytes : bytes → jsnum → Z → Z;
  skipPaddingZeros : bytes → Z → Z;
}.

(** [require("../constants/...")]: the static tables.  The two frame-type
    tables are objects keyed by frame identifier; own properties only (an
    identifier has at most four characters and no inherited property of a
    plain object has so short a name).  [genres] and [imageTypes] are
    arrays. *)
Class Tables := {
  FrameTypeMap : gmap jsstring jsstring;
  FrameTypeValueMap : gmap jsstring jsstring;
  genres : list jsstring;
  imageTypes : list jsstring;
}.

(** ** Data model *)

Record Flags := mkFlags {
  unsync : bool;
  xheader : bool;
  experimental : bool;
}.

Record Version := mkVersion {
  major : Z;
  minor : jsnum;
  revision : jsnum;
  flags : Flags;
}.

(** The values [parseFrame] stores in [result.value]. *)
Inductive FrameValue :=
| VNull
| VUndefined
| VStr (s : jsstring)
| VUserText (description value : option jsstring)
| VComment (language : jsstring) (description value : option jsstring)
| VImage (type : jsstring) (mime description : option jsstring) (data : bytes)
| VOwnership (pricePayed dateOfPurch : jsstring) (seller : option jsstring).

Definition valueOfString (s : option jsstring) : FrameValue :=
  match s with Some s => VStr s | None => VNull end.

(** The [result] object of [parseFrame]; [frame_tag = None] is [null]. *)
Record Frame := mkFrame {
  frame_id : jsstring;
  frame_tag : option jsstring;
  frame_value : FrameValue;
}.

(** A property of the tag record: the version, one frame value, or an array
    of frame values. *)
Inductive TagEntry :=
| TVersion (v : Version)
| TValue (v : FrameValue)
| TArray (vs : list FrameValue).

(** The tag record [tags]: an object used as a map from property name to
    value; its own properties (see [inheritedNames]). *)
Abbreviation Tags := (gmap jsstring TagEntry).

Inductive Error :=
| UnsyncError      (* new Error('no support for unsynchronisation') *)
| PushTypeError.   (* tags[frame.tag].push is not a function *)

(** What [parseV2Data] does: return [false], return the tag record, or
    throw. *)
Inductive Result :=
| RFalse
| RTags (tags : Tags)
| RThrow (e : Error)
| RNoFuel.

#[global] Instance Flags_eq_dec : EqDecision Flags.
Proof. solve_decision. Defined.
#[global] Instance Version_eq_dec : EqDecision Version.
Proof. solve_decision. Defined.
#[global] Instance FrameValue_eq_dec : EqDecision FrameValue.
Proof. solve_decision. Defined.
#[global] Instance Frame_eq_dec : EqDecision Frame.
Proof. solve_decision. Defined.
#[global] Instance TagEntry_eq_dec : EqDecision TagEntry.
Proof. solve_decision. Defined.
#[global] Instance Error_eq_dec : EqDecision Error.
Proof. solve_decision. Defined.

(** JavaScript truthiness of a frame value and of a string. *)
Definition truthyString (s : jsstring) : bool :=
  match s with [] => false | _ => true end.

Definition truthyValue (v : FrameValue) : bool :=
  match v with
  | VNull | VUndefined => false
  | VStr s => truthyString s
  | _ => true
  end.

(** ** The parser *)

Definition V2_MIN_LENGTH : Z := 20.

(** The bound of the description scan of an attached-picture frame, as the
    loop has it. *)
Definition APIC_SCAN_LIMIT : Z := 36700160.

(** Calculate the total tag size, but excluding the header size (10 bytes). *)
Definition calcTagSize (bytes : bytes) : Z :=
  band (get bytes 0) 0x7f * 0x200000 +
  band (get bytes 1) 0x7f * 0x4000 +
  band (get bytes 2) 0x7f * 0x80 +
  band (get bytes 3) 0x7f.

(** Calculate frame size (just content size, exclude 10 bytes header size).
    The four reads are in range once the length test has passed.  On bytes
    the sum is below 2^32, where the arithmetic of the code is exact. *)
Definition calcFrameSize (bytes : bytes) : Z :=
  if len bytes <? 4 then 0
  else match bytes with
       | b0 :: b1 :: b2 :: b3 :: _ =>
           b0 * 0x1000000 + b1 * 0x10000 + b2 * 0x100 + b3
       | _ => 0
       end.

(** The description scan of [parseFrame] for an attached picture:
    [for (i = variableStart; i < 36700160; i++) if (bytes[i] === 0) ... break].
    The result is the index at which the loop breaks, if it does, together
    with the indices [i] at which [bytes[i]] was read, in order. *)
Fixpoint apicScan (fuel : nat) (bytes : bytes) (i : Z) : option Z * list Z :=
  match fuel with
  | O => (None, [])
  | S fuel' =>
      if i <? APIC_SCAN_LIMIT then
        if isZero (get bytes i) then (Some i, [i])
        else let r := apicScan fuel' bytes (i + 1) in (r.1, i :: r.2)
      else (None, [])
  end.

(** The loop runs at most [APIC_SCAN_LIMIT - variableStart] times. *)
Definition apicScanFuel (variableStart : Z) : nat :=
  Z.to_nat (APIC_SCAN_LIMIT - variableStart).

Section Parser.
Context {U : Utils} {T : Tables}.

(** Parse ID3v2 tag header; [None] is [false].  The argument is never
    missing at the one call site. *)
Definition parseV2Header (bytes : bytes) : option Tags :=
  if len bytes <? 10 then None
  else
    let identity := readBytesToUTF8 bytes (Some 3) in
    if negb (strEq identity (str "ID3")) then None
    else
      let flagByte := get bytes 5 in
      let version :=
        {| major := 2;
           minor := get bytes 3;
           revision := get bytes 4;
           flags := {| unsync := negb (band flagByte 0x80 =? 0);
                       xheader := negb (band flagByte 0x40 =? 0);
                       experimental := negb (band flagByte 0x20 =? 0) |} |} in
      Some {[ str "version" := TVersion version ]}.

(** [genres[n]] *)
Definition genreAt (n : Z) : option jsstring := get genres n.

(** The special handling of the content type (TCON) in [parseFrame], for a
    value that is not [null]. *)
Definition handleTCON (value : jsstring) : FrameValue :=
  if firstCharIs value "(" then
    match matchGroups value with
    | [] => VStr value
    | handledTCON =>
        VStr (joinComma
                ((λ v, genreAt (digitsValue (slice v 1 (Some (-1)))))
                   <$> handledTCON))
    end
  else
    match parseInt10 value with
    | None => VStr value
    | Some genre =>
        match genreAt genre with
        | Some g => VStr g
        | None => VUndefined
        end
    end.

(** [imageTypes[b] || 'other'] *)
Definition imageTypeAt (b : jsnum) : jsstring :=
  match b with
  | Some n =>
      match get imageTypes n with
      | Some s => if truthyString s then s else str "other"
      | None => str "other"
      end
  | None => str "other"
  end.

(** Parse id3 frame. *)
Definition parseFrame (bytes : bytes) (minor : jsnum) (size : Z) : Frame :=
  let id := readBytesToUTF8 bytes (Some 4) in
  let flags1 := get bytes 9 in
  (* No support for compressed, unsychronised, etc frames *)
  if negb (isZero flags1) then mkFrame id None VNull
  else
    match FrameTypeMap !! id with
    | None => mkFrame id None VNull
    | Some tag =>
        mkFrame id (Some tag)
          (if firstCharIs id "T" then
             let encoding := get bytes 10 in
             if strEq id (str "TXXX") then
               let variableStart := 11 in
               let variableLength :=
                 getEndpointOfBytes bytes encoding variableStart - variableStart in
               let description :=
                 readBytesToString (slice bytes variableStart None) encoding
                   (Some variableLength) in
               let variableStart := variableStart + (variableLength + 1) in
               let variableStart := skipPaddingZeros bytes variableStart in
               VUserText description
                 (readBytesToString (slice bytes variableStart None) encoding None)
             else
               let value := readBytesToString (slice bytes 11 None) encoding None in
               if strEq id (str "TCON") then
                 match value with
                 | Some v => handleTCON v
                 | None => VNull
                 end
               else valueOfString value
           else if firstCharIs id "W" then
             if strEq id (str "WXXX") && isZero (get bytes 10) then
               VStr (readBytesToISO8859 (slice bytes 11 None) None)
             else
               VStr (readBytesToISO8859 (slice bytes 10 None) None)
           else if strEq id (str "COMM") || strEq id (str "USLT") then
             let encoding := get bytes 10 in
             let variableStart := 14 in
             let language := readBytesToISO8859 (slice bytes 11 None) (Some 3) in
             let variableLength :=
               getEndpointOfBytes bytes encoding variableStart - variableStart in
             let description :=
               readBytesToString (slice bytes variableStart None) encoding
                 (Some variableLength) in
             let variableStart :=
               skipPaddingZeros bytes (variableStart + variableLength + 1) in
             VComment language description
               (readBytesToString (slice bytes variableStart None) encoding None)
           else if strEq id (str "APIC") then
             let encoding := get bytes 10 in
             let variableStart := 11 in
             let variableLength :=
               getEndpointOfBytes bytes (Some 0) variableStart - variableStart in
             let mime :=
               readBytesToString (slice bytes variableStart None) (Some 0)
                 (Some variableLength) in
             let type := imageTypeAt (get bytes (variableStart + variableLength + 1)) in
             let variableStart := variableStart + (variableLength + 2) in
             let variableLength :=
               match (apicScan (apicScanFuel variableStart) bytes variableStart).1 with
               | Some i => i - variableStart
               | None => 0
               end in
             let description :=
               if variableLength =? 0 then None
               else readBytesToString (slice bytes variableStart None) encoding
                      (Some variableLength) in
             let variableStart :=
               skipPaddingZeros bytes (variableStart + variableLength + 1) in
             VImage type mime description (slice bytes variableStart None)
           else if strEq id (str "IPLS") then
             let encoding := get bytes 10 in
             valueOfString (readBytesToString (slice bytes 11 None) encoding None)
           else if strEq id (str "OWNE") then
             let encoding := get bytes 10 in
             let variableStart := 11 in
             let variableLength := getEndpointOfBytes bytes encoding variableStart in
             let pricePayed :=
               readBytesToISO8859 (slice bytes variableStart None) (Some variableLength) in
             let variableStart := variableStart + (variableLength + 1) in
             let dateOfPurch :=
               readBytesToISO8859 (slice bytes variableStart None) (Some 8) in
             let variableStart := variableStart + 8 in
             VOwnership pricePayed dateOfPurch
               (readBytesToString (slice bytes variableStart None) encoding None)
           else
             (* Do nothing to other frames. *)
             VNull)
    end.
End Parser.

(** ** The frame loop *)

(** One execution of the loop body of [parseV2Frames], as seen from outside:
    the loop left at the padding test, left at the empty-slice test, or a
    slice handed to [parseFrame]. *)
Inductive Event :=
| EvPadding (position : Z)
| EvEmptySlice (position size : Z)
| EvFrame (position size : Z) (slice : bytes) (frame : Frame).

(** How the loop ended. *)
Inductive LoopEnd :=
| Finished
| Thrown (e : Error)
| OutOfFuel.

Record Run := mkRun {
  run_end : LoopEnd;
  run_tags : Tags;
  run_log : list Event;
}.

Definition logged (ev : Event) (r : Run) : Run :=
  mkRun (run_end r) (run_tags r) (ev :: run_log r).

Section Frames.
Context {U : Utils} {T : Tables}.

(** The body of [if (frame.tag) { ... }] in [parseV2Frames]: store the
    frame's value in the tag record.  [push] exists only on an array, so
    a truthy property that is not one makes the call throw. *)
Definition storeFrame (tags : Tags) (frame : Frame) : Error + Tags :=
  match frame_tag frame with
  | None => inr tags
  | Some tag =>
      if truthyString tag then
        if bool_decide (FrameTypeValueMap !! frame_id frame = Some (str "array")) then
          match tags !! tag with
          | Some (TArray vs) => inr (<[tag := TArray (vs ++ [frame_value frame])]> tags)
          | Some (TVersion _) => inl PushTypeError
          | Some (TValue v) =>
              if truthyValue v then inl PushTypeError
              else inr (<[tag := TArray [frame_value frame]]> tags)
          | None => inr (<[tag := TArray [frame_value frame]]> tags)
          end
        else inr (<[tag := TValue (frame_value frame)]> tags)
      else inr tags
  end.

(** [while (position < bytes.length) { ... }] *)
Fixpoint framesLoop (fuel : nat) (bytes : bytes) (minor : jsnum)
    (position : Z) (tags : Tags) : Run :=
  if negb (position <? len bytes) then mkRun Finished tags []
  else
    match fuel with
    | O => mkRun OutOfFuel tags []
    | S fuel' =>
        let size := calcFrameSize (slice bytes (position + 4) None) in
        (* the left data would be '\u0000\u0000...', just a padding *)
        if size =? 0 then mkRun Finished tags [EvPadding position]
        else
          let slice := slice bytes position (Some (position + 10 + size)) in
          if len slice =? 0 then mkRun Finished tags [EvEmptySlice position size]
          else
            let frame := parseFrame slice minor size in
            match storeFrame tags frame with
            | inl e => mkRun (Thrown e) tags [EvFrame position size slice frame]
            | inr tags' =>
                logged (EvFrame position size slice frame)
                  (framesLoop fuel' bytes minor (position + len slice) tags')
            end
    end.

(** [tags.version.minor], read once before the loop.  The only caller
    passes a record that holds the version. *)
Definition versionMinor (tags : Tags) : jsnum :=
  match tags !! str "version" with
  | Some (TVersion v) => minor v
  | _ => None
  end.

(** [parseV2Frames(bytes, tags)].  Every pass through the loop consumes at
    least one byte, so [length bytes] passes are enough
    (see [framesLoop_enough_fuel]). *)
Definition parseV2Frames (bytes : bytes) (tags : Tags) : Run :=
  framesLoop (length bytes) bytes (versionMinor tags) 0 tags.

Definition versionFlags (tags : Tags) : Flags :=
  match tags !! str "version" with
  | Some (TVersion v) => flags v
  | _ => mkFlags false false false
  end.

(** [parseV2Data(bytes)]; a missing buffer is [None]. *)
Definition parseV2Data (bytes : option bytes) : Result :=
  match bytes with
  | None => RFalse
  | Some bytes =>
      if len bytes <? V2_MIN_LENGTH then RFalse
      else
        match parseV2Header (slice bytes 0 (Some 10)) with
        | None => RFalse
        | Some tags =>
            let flags := versionFlags tags in
            (* Currently do not support unsynchronisation *)
            if unsync flags then RThrow UnsyncError
            else
              let headerSize :=
                10 + (if xheader flags
                      then calcTagSize (slice bytes 10 (Some 14)) else 0) in
              let tagSize := calcTagSize (slice bytes 6 (Some 10)) in
              let r := parseV2Frames
                         (slice bytes headerSize (Some (tagSize + headerSize))) tags in
              match run_end r with
              | Finished => RTags (run_tags r)
              | Thrown e => RThrow e
              | OutOfFuel => RNoFuel
              end
        end
  end.

(** The slices handed to [parseFrame], each with the size declared in its
    header, and the number of passes through the loop body. *)
Definition handedSlices (r : Run) : list (Z * bytes) :=
  omap (λ ev, match ev with
              | EvFrame _ size slice _ => Some (size, slice)
              | _ => None
              end) (run_log r).

Definition loopSteps (r : Run) : nat := length (run_log r).
End Frames.

(** ** A model of the imported modules *)

Module SpecModel.

(** Modelled from the spec: the bytes a decoder of [../utils] reads, the
    first [optionalLength] or all of them. *)
Definition readable (bs : bytes) (maxToRead : option Z) : bytes :=
  match maxToRead with
  | None => bs
  | Some n => take (Z.to_nat n) bs
  end.

(** Modelled from the spec: the ISO-8859-1-only decoder
    [decodeLatin1(bytes, optionalLength)] of [../utils], which the source
    imports as [readBytesToISO8859].  Every byte is the character of the
    same code. *)
Definition decodeLatin1 (bs : bytes) (maxToRead : option Z) : jsstring :=
  readable bs maxToRead.

(** Modelled from the spec: the UTF-8 case of the encoding-aware decoder of
    [../utils], imported as [readBytesToUTF8]; the spec uses it for the
    ASCII magic and for frame identifiers.  A byte below 0x80 is the
    character of the same code; multi-byte sequences, on which the spec is
    silent, are not decoded: each of their bytes gives U+FFFD. *)
Definition decodeUTF8 (bs : bytes) (maxToRead : option Z) : jsstring :=
  (λ b, if (0 <=? b) && (b <? 0x80) then b else 0xFFFD) <$> readable bs maxToRead.

(** Modelled from the spec: the double-byte encodings of the decoder of
    [../utils], pairs of bytes as 16-bit code units. *)
Fixpoint codeUnits (bigEndian : bool) (bs : bytes) : jsstring :=
  match bs with
  | a :: b :: r =>
      (if bigEndian then a * 0x100 + b else b * 0x100 + a) :: codeUnits bigEndian r
  | _ => []
  end.

(** Modelled from the spec: the encoding-aware decoder
    [decodeString(bytes, encoding, optionalLength)] of [../utils], imported
    as [readBytesToString], with the selectors 0 = ISO-8859-1, 1 = UCS-2
    with byte-order mark, 2 = UTF-16BE without, 3 = UTF-8.  The spec does
    not say what another selector gives; the parser tests the result
    against [null], which is what this model returns then. *)
Definition decodeString (bs : bytes) (encoding : jsnum) (maxToRead : option Z)
    : option jsstring :=
  match encoding with
  | Some 0 => Some (decodeLatin1 bs maxToRead)
  | Some 1 =>
      match readable bs maxToRead with
      | 0xFF :: 0xFE :: r => Some (codeUnits false r)
      | 0xFE :: 0xFF :: r => Some (codeUnits true r)
      | r => Some (codeUnits true r)
      end
  | Some 2 => Some (codeUnits true (readable bs maxToRead))
  | Some 3 => Some (decodeUTF8 bs maxToRead)
  | _ => None
  end.

(** Modelled from the spec: the scan of the terminator locator of
    [../utils]; the first terminator in [bs], whose first byte has index
    [i]. *)
Fixpoint findNull (wide : bool) (bs : bytes) (i : Z) : Z :=
  match bs with
  | [] => i
  | b :: r =>
      if (b =? 0) && (if wide then isZero (head r) else true) then i
      else findNull wide r (i + 1)
  end.

(** Modelled from the spec: the null-terminator locator
    [findTerminator(bytes, encoding, startOffset)] of [../utils], imported
    as [getEndpointOfBytes].  The terminator is one null byte for the
    single-byte encodings and two for the double-byte ones (selectors 1 and
    2); the result is its offset in [bytes], or the length when there is
    none. *)
Definition findTerminator (bs : bytes) (encoding : jsnum) (startOffset : Z) : Z :=
  let wide := bool_decide (encoding = Some 1 ∨ encoding = Some 2) in
  findNull wide (drop (Z.to_nat startOffset) bs) (Z.max startOffset 0).

(** Modelled from the spec: the scan of the padding-skip helper of
    [../utils]. *)
Fixpoint skipNullsFrom (bs : bytes) (i : Z) : Z :=
  match bs with
  | 0 :: r => skipNullsFrom r (i + 1)
  | _ => i
  end.

(** Modelled from the spec: the padding-skip helper
    [skipNulls(bytes, offset)] of [../utils], imported as
    [skipPaddingZeros]: the offset of the first byte at or after [offset]
    that is not null. *)
Definition skipNulls (bs : bytes) (offset : Z) : Z :=
  skipNullsFrom (drop (Z.to_nat offset) bs) (Z.max offset 0).

Definition utils : Utils := {|
  readBytesToUTF8 := decodeUTF8;
  readBytesToISO8859 := decodeLatin1;
  readBytesToString := decodeString;
  getEndpointOfBytes := findTerminator;
  skipPaddingZeros := skipNulls;
|}.

(** Modelled from the spec: the static tables of [../constants], which are
    not part of the parser.  The spec names their roles (identifier to
    semantic tag, identifier to multiplicity class, genre index to name,
    picture-type index to name) and two entries: picture type 3 is the
    front cover, and repeated [COMM] frames accumulate under the comments
    tag.  The other entries are a sample in the same style. *)
Definition frameTypes : gmap jsstring jsstring :=
  list_to_map
    [ (str "TIT2", str "title"); (str "TPE1", str "artist");
      (str "TALB", str "album"); (str "TCON", str "genre");
      (str "TXXX", str "user-defined-text-information");
      (str "WOAR", str "url-artist");
      (str "WXXX", str "user-defined-url-link");
      (str "COMM", str "comments"); (str "USLT", str "lyrics");
      (str "APIC", str "image"); (str "IPLS", str "involved-people-list");
      (str "OWNE", str "ownership") ].

Definition frameTypeValues : gmap jsstring jsstring :=
  list_to_map
    [ (str "TIT2", str "string"); (str "TCON", str "string");
      (str "COMM", str "array"); (str "OWNE", str "object") ].

Definition genreNames : list jsstring :=
  str <$> [ "Blues"; "Classic Rock"; "Country"; "Dance"; "Disco"; "Funk";
            "Grunge"; "Hip-Hop"; "Jazz"; "Metal"; "New Age"; "Oldies";
            "Other"; "Pop"; "R&B"; "Rap"; "Reggae"; "Rock" ]%string.

Definition pictureTypes : list jsstring :=
  str <$> [ "Other"; "32x32 pixels 'file icon' (PNG only)"; "Other file icon";
            "Cover (front)"; "Cover (back)" ]%string.

Definition tables : Tables := {|
  FrameTypeMap := frameTypes;
  FrameTypeValueMap := frameTypeValues;
  genres := genreNames;
  imageTypes := pictureTypes;
|}.

End SpecModel.

(** The byte values of an ASCII string literal, to write frames down. *)
Definition ascii (s : string) : bytes := str s.

(** The tag record a valid header gives. *)
Definition headerTags (v : Version) : Tags := {[ str "version" := TVersion v ]}.

(** ** The loop as a relation *)

Section Trace.
Context {U : Utils} {T : Tables}.
Variables (bytes : bytes) (minor : jsnum).

(** [LoopTrace position tags r]: the loop of [parseV2Frames], entered at
    its test with the cursor at [position] and the record [tags], runs as
    [r] says.  One rule per way through the loop body. *)
Inductive LoopTrace : Z → Tags → Run → Prop :=
| trace_exit position tags :
    len bytes ≤ position →
    LoopTrace position tags (mkRun Finished tags [])
| trace_padding position tags :
    position < len bytes →
    calcFrameSize (slice bytes (position + 4) None) = 0 →
    LoopTrace position tags (mkRun Finished tags [EvPadding position])
| trace_empty position tags size :
    position < len bytes →
    size = calcFrameSize (slice bytes (position + 4) None) →
    size ≠ 0 →
    len (slice bytes position (Some (position + 10 + size))) = 0 →
    LoopTrace position tags (mkRun Finished tags [EvEmptySlice position size])
| trace_throw position tags size sl frame e :
    position < len bytes →
    size = calcFrameSize (slice bytes (position + 4) None) →
    size ≠ 0 →
    sl = slice bytes position (Some (position + 10 + size)) →
    len sl ≠ 0 →
    frame = parseFrame sl minor size →
    storeFrame tags frame = inl e →
    LoopTrace position tags (mkRun (Thrown e) tags [EvFrame position size sl frame])
| trace_frame position tags size sl frame tags' r :
    position < len bytes →
    size = calcFrameSize (slice bytes (position + 4) None) →
    size ≠ 0 →
    sl = slice bytes position (Some (position + 10 + size)) →
    len sl ≠ 0 →
    frame = parseFrame sl minor size →
    storeFrame tags frame = inr tags' →
    LoopTrace (position + len sl) tags' r →
    LoopTrace position tags (logged (EvFrame position size sl frame) r).

End Trace.

(** An event and a run seen from a buffer that has [k] more bytes in
    front. *)
Definition shiftEvent (k : Z) (ev : Event) : Event :=
  match ev with
  | EvPadding p => EvPadding (k + p)
  | EvEmptySlice p size => EvEmptySlice (k + p) size
  | EvFrame p size sl frame => EvFrame (k + p) size sl frame
  end.

Definition shiftRun (k : Z) (r : Run) : Run :=
  mkRun (run_end r) (run_tags r) (shiftEvent k <$> run_log r).

(** The frames decoded in a run, in order. *)
Definition framesOf (log : list Event) : list Frame :=
  omap (λ ev, match ev with
              | EvFrame _ _ _ frame => Some frame
              | _ => None
              end) log.

(** The cursor at which a pass through the loop body starts, and the cursor
    it leaves for the next pass, if the loop goes on. *)
Definition eventPosition (ev : Event) : Z :=
  match ev with
  | EvPadding p | EvEmptySlice p _ | EvFrame p _ _ _ => p
  end.

Definition nextPosition (ev : Event) : option Z :=
  match ev with
  | EvFrame p _ sl _ => Some (p + len sl)
  | _ => None
  end.

(** [cursorAfter r l1 p]: the passes [l1] are the first of the run [r], and
    after them the loop is back at its test with the cursor at [p].  Before
    any pass the cursor is 0; after a pass it is behind the slice of the
    frame decoded, if the store of that frame did not throw (the run went
    on to another pass, or finished). *)
Definition cursorAfter (r : Run) (l1 : list Event) (p : Z) : Prop :=
  l1 `prefix_of` run_log r ∧
  (l1 = [] ∧ p = 0
   ∨ ∃ l0 ev, l1 = l0 ++ [ev] ∧ nextPosition ev = Some p
              ∧ (l1 = run_log r → run_end r = Finished)).

(** ** The claims about the frame loop, as stated *)

(** Every slice handed to [parseFrame] is as long as its header declares. *)
Definition exactSlices (r : Run) : Prop :=
  ∀ size sl, (size, sl) ∈ handedSlices r → len sl = 10 + size.

(** ** What the claims assume of the imported modules *)

(** The magic of an ID3v2 tag: ASCII [ID3]. *)
Definition magic : bytes := [0x49; 0x44; 0x33].

(** The UTF-8 decoder, asked for three characters of a byte buffer, gives
    the string [ID3] exactly on the three bytes of the magic. *)
Definition decodesMagic (U : Utils) : Prop :=
  ∀ bs : bytes, is_bytes bs → 3 ≤ len bs →
    (readBytesToUTF8 bs (Some 3) = str "ID3" ↔ take 3 bs = magic).

(** The ISO-8859-1 decoder, without a length, gives for every byte the
    character of the same code. *)
Definition decodesLatin1 (U : Utils) : Prop :=
  ∀ bs : bytes, is_bytes bs → readBytesToISO8859 bs None = bs.

(** The test [FrameTypeValueMap[id] === 'array'] of [parseV2Frames]. *)
Definition isArrayId `{T : Tables} (id : jsstring) : bool :=
  bool_decide (FrameTypeValueMap !! id = Some (str "array")).

(** The property names a plain object inherits from [Object.prototype].
    The tag record is modelled by its own properties, which is what
    [tags[name]] reads for every other name. *)
Definition inheritedNames : list jsstring :=
  str <$> [ "constructor"; "hasOwnProperty"; "isPrototypeOf";
            "propertyIsEnumerable"; "toLocaleString"; "toString"; "valueOf";
            "__defineGetter__"; "__defineSetter__"; "__lookupGetter__";
            "__lookupSetter__"; "__proto__" ]%string.

(** The two frame-type tables fit together: no semantic tag is the
    property [version] of the tag record or a name the record inherits,
    and the identifiers of one semantic tag are all multi-valued or all
    single-valued. *)
Definition tablesConsistent (T : Tables) : Prop :=
  (∀ id, FrameTypeMap !! id ≠ Some (str "version")) ∧
  (∀ id1 id2 tag,
     FrameTypeMap !! id1 = Some tag → FrameTypeMap !! id2 = Some tag →
     isArrayId id1 = isArrayId id2) ∧
  (∀ id tag, FrameTypeMap !! id = Some tag → tag ∉ inheritedNames).

(** A frame as [parseFrame] returns it: its tag, if any, is the one the
    table gives for its identifier. *)
Definition frameFromTable `{T : Tables} (frame : Frame) : Prop :=
  ∀ tag, frame_tag frame = Some tag → FrameTypeMap !! frame_id frame = Some tag.

(** ** The tag assembler, as stated *)

(** [storeFrame] over a sequence of decoded frames. *)
Fixpoint storeAll `{T : Tables} (tags : Tags) (frames : list Frame) : Error + Tags :=
  match frames with
  | [] => inr tags
  | frame :: frames' =>
      match storeFrame tags frame with
      | inl e => inl e
      | inr tags' => storeAll tags' frames'
      end
  end.

(** The values of the frames that carry the semantic tag [tag], in
    encounter order. *)
Definition valuesFor (tag : jsstring) (frames : list Frame) : list FrameValue :=
  frame_value <$> filter (λ f, frame_tag f = Some tag) frames.

(** What the claim says the record holds under a semantic tag: the list of
    all its values if the tag is multi-valued, the last value otherwise;
    nothing if no frame carried the tag. *)
Definition expectedEntry (multi : bool) (values : list FrameValue) : option TagEntry :=
  if multi then
    match values with
    | [] => None
    | _ => Some (TArray values)
    end
  else TValue <$> last values.

(** The record after the frames [frames], starting from the record of the
    header: the version is in place and every semantic tag of the table
    holds what the claim says. *)
Definition Assembled `{T : Tables} (v : Version) (frames : list Frame) (tags : Tags) : Prop :=
  tags !! str "version" = Some (TVersion v) ∧
  ∀ id tag, FrameTypeMap !! id = Some tag → truthyString tag = true →
    tags !! tag = expectedEntry (isArrayId id) (valuesFor tag frames).

(** The version record [parseV2Header] builds from the ten header bytes. *)
Definition headerVersion (bytes : bytes) : Version :=
  {| major := 2;
     minor := get bytes 3;
     revision := get bytes 4;
     flags := {| unsync := negb (band (get bytes 5) 0x80 =? 0);
                 xheader := negb (band (get bytes 5) 0x40 =? 0);
                 experimental := negb (band (get bytes 5) 0x20 =? 0) |} |}.

(** The payload size the header of a frame declares. *)
Definition declaredSize (frame : bytes) : Z := calcFrameSize (slice frame 4 None).

(** ** The ownership frame and the picture scan, as stated *)

(** The offset of the first null byte of [bytes] at or after [start], or
    the length if there is none. *)
Definition firstNull (bytes : bytes) (start : Z) : Z :=
  SpecModel.findNull false (drop (Z.to_nat start) bytes) (Z.max start 0).

(** C3 in the words of the spec: the price runs from frame byte 11 to the
    first single null byte, the purchase date is the next eight bytes, and
    the seller is the rest, decoded by the encoding byte. *)
Definition ownershipAsStated `{U : Utils} (bytes : bytes) : FrameValue :=
  let nul := firstNull bytes 11 in
  VOwnership
    (readBytesToISO8859 (slice bytes 11 (Some nul)) None)
    (readBytesToISO8859 (slice bytes (nul + 1) None) (Some 8))
    (readBytesToString (slice bytes (nul + 1 + 8) None) (get bytes 10) None).

(** The bound of the description scan in the words of the spec. *)
Definition THIRTY_MIB : Z := 30 * 1024 * 1024.

(** Where the description scan of an attached-picture frame starts: after
    the MIME type, its null byte and the picture type. *)
Definition apicScanStart `{U : Utils} (bytes : bytes) : Z :=
  11 + (getEndpointOfBytes bytes (Some 0) 11 - 11 + 2).

(** The indices the description scan of an attached-picture frame reads. *)
Definition apicInspected `{U : Utils} (bytes : bytes) : list Z :=
  (apicScan (apicScanFuel (apicScanStart bytes)) bytes (apicScanStart bytes)).2.

(** The length of the description the scan finds: the distance to the
    first null byte, or 0 if the scan ends without one. *)
Definition apicDescriptionLength `{U : Utils} (bytes : bytes) : Z :=
  match (apicScan (apicScanFuel (apicScanStart bytes)) bytes (apicScanStart bytes)).1 with
  | Some i => i - apicScanStart bytes
  | None => 0
  end.

(** ** The content-type frame, as stated *)

(** A group [(digits)], and a string of one or more digits. *)
Definition paren (ds : jsstring) : jsstring := [40] ++ ds ++ [41].

Definition isDigits (ds : jsstring) : Prop :=
  ds ≠ [] ∧ Forall (λ c, isDigit c = true) ds.

(** The string is wrapped in one or more [(digits)] groups: it is these
    groups and nothing else. *)
Definition wrappedGroups (s : jsstring) (groups : list jsstring) : Prop :=
  groups ≠ [] ∧ Forall isDigits groups ∧ s = concat (paren <$> groups).

(** The whole string is a bare integer. *)
Definition bareInteger (s : jsstring) : Prop := isDigits s.

(** [genres[n]] as a frame value. *)
Definition genreValue `{T : Tables} (n : Z) : FrameValue :=
  match genreAt n with
  | Some g => VStr g
  | None => VUndefined
  end.

(** The genre entries of the numbers of the groups, comma-joined. *)
Definition joinedGenres `{T : Tables} (groups : list jsstring) : FrameValue :=
  VStr (joinComma ((λ ds, genreAt (digitsValue ds)) <$> groups)).

(** C4 in the words of the spec, for the decoded string [s] and the value
    [v] of the frame: groups, else a bare integer, else the literal. *)
Definition tconAsStated `{T : Tables} (s : jsstring) (v : FrameValue) : Prop :=
  (∀ groups, wrappedGroups s groups → v = joinedGenres groups)
  ∧ (bareInteger s → v = genreValue (digitsValue s))
  ∧ ((¬ ∃ groups, wrappedGroups s groups) → ¬ bareInteger s → v = VStr s).

(** ** Sample buffers *)

Module Samples.

(** A tag header of version 2.3.0 with the given flag byte and a tag size
    below 128, and a frame with a size below 256. *)
Definition header (flagByte tagSize : Z) : bytes :=
  ascii "ID3" ++ [3; 0; flagByte; 0; 0; 0; tagSize].

Definition frameBytes (id : string) (size flag2 : Z) (payload : bytes) : bytes :=
  ascii id ++ [0; 0; 0; size; 0; flag2] ++ payload.

Definition version230 : Version :=
  mkVersion 2 (Some 3) (Some 0) (mkFlags false false false).

(** A title frame that declares five bytes of payload and holds three, in a
    buffer that ends there. *)
Definition truncatedTitle : bytes := frameBytes "TIT2" 5 0 (0 :: ascii "ab").
Definition truncatedBuffer : bytes := header 0 15 ++ truncatedTitle.
Definition truncatedBody : bytes := slice truncatedBuffer 10 (Some (15 + 10)).

(** Two whole title frames and zero padding. *)
Definition paddedBody : bytes :=
  frameBytes "TIT2" 3 0 (0 :: ascii "ab") ++ frameBytes "TPE1" 2 0 (0 :: ascii "c")
  ++ [0; 0; 0; 0; 0; 0; 0; 0; 0; 0].

(** Two comment frames in different languages, then two titles. *)
Definition commentFrame (language text : string) : bytes :=
  frameBytes "COMM" (5 + len (ascii text)) 0 (0 :: ascii language ++ [0] ++ ascii text).

Definition commentsBody : bytes :=
  commentFrame "eng" "hi" ++ commentFrame "fra" "yo"
  ++ frameBytes "TIT2" 3 0 (0 :: ascii "ab") ++ frameBytes "TIT2" 3 0 (0 :: ascii "cd").

(** A title frame whose second flag byte is set, and a user-defined URL
    frame whose encoding byte is 1. *)
Definition flaggedTitle : bytes := frameBytes "TIT2" 3 1 (0 :: ascii "xy").
Definition urlFrame : bytes := frameBytes "WXXX" 5 0 (1 :: ascii "http").

(** An ownership frame: price, null byte, purchase date, seller. *)
Definition ownershipFrame : bytes :=
  frameBytes "OWNE" 21 0
    (0 :: ascii "$1.00" ++ [0] ++ ascii "20200101" ++ ascii "Seller").

(** An attached picture whose description has no terminator. *)
Definition pictureNoTerminator : bytes :=
  frameBytes "APIC" 17 0 (0 :: ascii "image/png" ++ [0; 3] ++ ascii "cover").

(** A content-type frame whose text is an integer followed by letters. *)
Definition genreFrame : bytes := frameBytes "TCON" 6 0 (0 :: ascii "17abc").

(** A whole title frame, and a whole frame whose identifier is in no
    table. *)
Definition wholeTitle : bytes := frameBytes "TIT2" 3 0 (0 :: ascii "ab").
Definition unknownFrame : bytes := frameBytes "ZZZZ" 2 0 [1; 2].

(** A user-defined text frame, a comment and an attached picture in
    ISO-8859-1; the value of the text frame and the picture data start with
    null bytes. *)
Definition userTextFrame : bytes :=
  frameBytes "TXXX" 9 0 (0 :: ascii "mood" ++ [0] ++ [0; 0] ++ ascii "ok").

Definition pictureFrame : bytes :=
  frameBytes "APIC" 21 0
    (0 :: ascii "image/png" ++ [0; 3] ++ ascii "art" ++ [0] ++ [0; 137; 80; 78; 71; 0]).

End Samples.

(** ** Encoders, to state round trips *)

(** The synchsafe encoding of a size below 2^28, which [calcTagSize]
    decodes: seven bits per byte, most significant byte first. *)
Definition synchsafeEncode (n : Z) : bytes :=
  [n / 0x200000 mod 0x80; n / 0x4000 mod 0x80; n / 0x80 mod 0x80; n mod 0x80].

(** Four bytes below 0x80, as the header comment of [parseV2Header] asks of
    the size bytes. *)
Definition isSynchsafe (bs : bytes) : Prop :=
  length bs = 4%nat ∧ Forall (λ b, 0 ≤ b < 0x80) bs.

(** The plain big-endian encoding of a size below 2^32, which
    [calcFrameSize] decodes. *)
Definition bigEndianEncode (n : Z) : bytes :=
  [n / 0x1000000 mod 0x100; n / 0x10000 mod 0x100; n / 0x100 mod 0x100; n mod 0x100].

(** ** Where the frame body lies *)

(** The bounds [headerSize] and [tagSize + headerSize] of the slice that
    [parseV2Data] hands to [parseV2Frames]. *)
Definition frameBodyStart (bytes : bytes) : Z :=
  10 + (if xheader (flags (headerVersion (slice bytes 0 (Some 10))))
        then calcTagSize (slice bytes 10 (Some 14)) else 0).

Definition frameBodyEnd (bytes : bytes) : Z :=
  calcTagSize (slice bytes 6 (Some 10)) + frameBodyStart bytes.

(** ** What the decoding of ISO-8859-1 frames assumes of the helpers *)

Definition isNull (b : Z) : bool := b =? 0.

(** The offset of the first byte of [bytes] at or after [start] that is not
    null, or the first offset behind the buffer. *)
Definition firstNonNull (bytes : bytes) (start : Z) : Z :=
  SpecModel.skipNullsFrom (drop (Z.to_nat start) bytes) (Z.max start 0).

(** The helpers of [../utils] on a byte buffer and text encoding 0
    (ISO-8859-1): the decoders give for each byte they read the character
    of the same code, [getEndpointOfBytes] gives the offset of the first
    null byte from the start offset on (the length if there is none), and
    [skipPaddingZeros] the offset of the first byte from there on that is
    not null. *)
Definition latin1Helpers (U : Utils) : Prop :=
  (∀ bs n, is_bytes bs → 0 ≤ n →
     readBytesToString bs (Some 0) (Some n) = Some (take (Z.to_nat n) bs))
  ∧ (∀ bs, is_bytes bs → readBytesToString bs (Some 0) None = Some bs)
  ∧ (∀ bs n, is_bytes bs → 0 ≤ n →
       readBytesToISO8859 bs (Some n) = take (Z.to_nat n) bs)
  ∧ (∀ bs start, is_bytes bs → 0 ≤ start →
       getEndpointOfBytes bs (Some 0) start = firstNull bs start)
  ∧ (∀ bs start, is_bytes bs → 0 ≤ start →
       skipPaddingZeros bs start = firstNonNull bs start).

(** * Properties *)

(** A decidable closed proposition, by evaluation. *)
Ltac by_compute := apply (bool_decide_unpack _); vm_compute; exact I.

(** ** Lengths, reads and slices *)

Lemma len_nonneg {A} (l : list A) : 0 ≤ len l.
Proof. unfold len. lia. Qed.

Lemma len_app {A} (l1 l2 : list A) : len (l1 ++ l2) = len l1 + len l2.
Proof. unfold len. rewrite length_app. lia. Qed.

Lemma len_nil_iff {A} (l : list A) : len l = 0 ↔ l = [].
Proof.
  unfold len. split; [|intros ->; done].
  destruct l; [done | simpl; lia].
Qed.

Lemma slice_from {A} (l : list A) (k : Z) :
  0 ≤ k → slice l k None = drop (Z.to_nat k) l.
Proof.
  intros Hk. unfold slice, relIndex, len.
  destruct (Z.ltb_spec k 0) as [?|_]; [lia|].
  destruct (Z.le_gt_cases k (Z.of_nat (length l))) as [Hle|Hgt].
  - rewrite Z.min_l by lia. apply take_ge. rewrite length_drop. lia.
  - rewrite Z.min_r by lia. rewrite Nat2Z.id.
    rewrite (drop_ge l (Z.to_nat k)) by lia.
    rewrite drop_all. apply take_nil.
Qed.

Lemma slice_range {A} (l : list A) (k e : Z) :
  0 ≤ k → 0 ≤ e →
  slice l k (Some e) = take (Z.to_nat (e - k)) (drop (Z.to_nat k) l).
Proof.
  intros Hk He. unfold slice, relIndex, len.
  destruct (Z.ltb_spec k 0) as [?|_]; [lia|].
  destruct (Z.ltb_spec e 0) as [?|_]; [lia|].
  set (n := Z.of_nat (length l)).
  destruct (Z.le_gt_cases k n) as [Hle|Hgt].
  - rewrite (Z.min_l k n) by lia.
    destruct (Z.le_gt_cases e n) as [Hen|Hen].
    + by rewrite (Z.min_l e n) by lia.
    + rewrite (Z.min_r e n) by lia.
      rewrite !take_ge; [done | |]; rewrite length_drop; lia.
  - rewrite (Z.min_r k n) by lia. unfold n. rewrite Nat2Z.id.
    rewrite (drop_ge l (Z.to_nat k)) by lia.
    by rewrite drop_all, !take_nil.
Qed.

Lemma len_slice_range {A} (l : list A) (k e : Z) :
  0 ≤ k → 0 ≤ e →
  len (slice l k (Some e)) = Z.max 0 (Z.min (e - k) (len l - k)).
Proof.
  intros Hk He. rewrite slice_range by done.
  unfold len. rewrite length_take, length_drop. lia.
Qed.

Lemma slice_app_shift {A} (pre l : list A) (k : Z) (e : option Z) :
  0 ≤ k → (∀ x, e = Some x → 0 ≤ x) →
  slice (pre ++ l) (len pre + k) ((λ x, len pre + x) <$> e) = slice l k e.
Proof.
  intros Hk He.
  assert (Hd : drop (Z.to_nat (len pre + k)) (pre ++ l) = drop (Z.to_nat k) l).
  { unfold len. rewrite Z2Nat.inj_add, Nat2Z.id by lia. by rewrite drop_app_add. }
  pose proof (len_nonneg pre).
  destruct e as [x|]; simpl.
  - specialize (He x eq_refl).
    rewrite !slice_range by lia. rewrite Hd. f_equal. lia.
  - rewrite !slice_from by lia. done.
Qed.

Lemma slice_app_shift_from {A} (pre l : list A) (k : Z) :
  0 ≤ k → slice (pre ++ l) (len pre + k) None = slice l k None.
Proof. intros Hk. by apply (slice_app_shift pre l k None). Qed.

Lemma slice_app_shift_range {A} (pre l : list A) (k e : Z) :
  0 ≤ k → 0 ≤ e →
  slice (pre ++ l) (len pre + k) (Some (len pre + e)) = slice l k (Some e).
Proof.
  intros Hk He. apply (slice_app_shift pre l k (Some e)); [done|].
  by intros x [= <-].
Qed.

Lemma get_app_shift {A} (pre l : list A) (i : Z) :
  0 ≤ i → get (pre ++ l) (len pre + i) = get l i.
Proof.
  intros Hi. unfold get, len.
  destruct (Z.ltb_spec i 0); [lia|].
  destruct (Z.ltb_spec (Z.of_nat (length pre) + i) 0); [lia|].
  rewrite Z2Nat.inj_add, Nat2Z.id by lia.
  by rewrite lookup_app_r, Nat.add_comm, Nat.add_sub by lia.
Qed.

Lemma is_bytes_drop (bs : bytes) (n : nat) : is_bytes bs → is_bytes (drop n bs).
Proof. apply Forall_drop. Qed.

(** ** The size decoders *)

Lemma calcFrameSize_short (bs : bytes) : len bs < 4 → calcFrameSize bs = 0.
Proof.
  intros H. unfold calcFrameSize. by destruct (Z.ltb_spec (len bs) 4); [|lia].
Qed.

Lemma calcFrameSize_nonneg (bs : bytes) : is_bytes bs → 0 ≤ calcFrameSize bs.
Proof.
  intros Hb. unfold calcFrameSize. destruct (len bs <? 4); [lia|].
  destruct bs as [|b0 [|b1 [|b2 [|b3 r]]]]; try lia.
  repeat (apply Forall_cons in Hb as [? Hb]). unfold is_byte in *. lia.
Qed.

Lemma calcFrameSize_app (bs r : bytes) :
  4 ≤ len bs → calcFrameSize (bs ++ r) = calcFrameSize bs.
Proof.
  intros H. unfold calcFrameSize. rewrite len_app.
  pose proof (len_nonneg r).
  destruct (Z.ltb_spec (len bs + len r) 4); [lia|].
  destruct (Z.ltb_spec (len bs) 4); [lia|].
  destruct bs as [|b0 [|b1 [|b2 [|b3 r']]]]; unfold len in *; simpl in *; lia.
Qed.

(** ** The loop: relation and function agree *)

Section LoopFacts.
Context {U : Utils} {T : Tables}.
Variables (bytes : bytes) (minor : jsnum).

(** Every pass consumes at least one byte: fuel for the bytes that are left
    is enough, and the function computes a run of the relation. *)
Lemma framesLoop_trace (fuel : nat) (position : Z) (tags : Tags) :
  len bytes - position ≤ Z.of_nat fuel →
  LoopTrace bytes minor position tags (framesLoop fuel bytes minor position tags).
Proof.
  revert position tags. induction fuel as [|fuel IH]; intros position tags Hfuel.
  - simpl. destruct (Z.ltb_spec position (len bytes)); [lia|].
    by apply trace_exit.
  - simpl. destruct (Z.ltb_spec position (len bytes)) as [Hlt|Hge]; simpl;
      [|by apply trace_exit].
    destruct (Z.eqb_spec (calcFrameSize (slice bytes (position + 4) None)) 0)
      as [Hz|Hnz]; [by apply trace_padding|].
    destruct (Z.eqb_spec
                (len (slice bytes position
                        (Some (position + 10 +
                               calcFrameSize (slice bytes (position + 4) None)))))
                0) as [He|Hne]; [by eapply trace_empty|].
    destruct (storeFrame tags _) as [e|tags'] eqn:Hstore.
    + by eapply trace_throw.
    + eapply trace_frame; eauto.
      apply IH. pose proof (len_nonneg (slice bytes position
        (Some (position + 10 + calcFrameSize (slice bytes (position + 4) None))))).
      lia.
Qed.

(** The relation is a function: the run it relates to a cursor and a record
    is the one computed, with any fuel that is enough. *)
Lemma trace_framesLoop (fuel : nat) (position : Z) (tags : Tags) (r : Run) :
  LoopTrace bytes minor position tags r →
  len bytes - position ≤ Z.of_nat fuel →
  framesLoop fuel bytes minor position tags = r.
Proof.
  intros Htr. revert fuel.
  induction Htr as [p tags Hp|p tags Hp Hz|p tags size Hp -> Hnz He
                   |p tags size sl frame e Hp -> Hnz -> Hne -> Hst
                   |p tags size sl frame tags' r Hp -> Hnz -> Hne -> Hst Htr IH];
    intros fuel Hfuel.
  - destruct fuel; simpl; by destruct (Z.ltb_spec p (len bytes)); [lia|].
  - destruct fuel as [|fuel]; [lia|]. simpl.
    destruct (Z.ltb_spec p (len bytes)); [|lia]. simpl.
    by rewrite Hz.
  - destruct fuel as [|fuel]; [lia|]. simpl.
    destruct (Z.ltb_spec p (len bytes)); [|lia]. simpl.
    destruct (Z.eqb_spec (calcFrameSize (slice bytes (p + 4) None)) 0); [done|].
    by rewrite He.
  - destruct fuel as [|fuel]; [lia|]. simpl.
    destruct (Z.ltb_spec p (len bytes)); [|lia]. simpl.
    destruct (Z.eqb_spec (calcFrameSize (slice bytes (p + 4) None)) 0); [done|].
    destruct (Z.eqb_spec (len (slice bytes p
      (Some (p + 10 + calcFrameSize (slice bytes (p + 4) None))))) 0); [done|].
    by rewrite Hst.
  - destruct fuel as [|fuel]; [lia|]. simpl.
    destruct (Z.ltb_spec p (len bytes)); [|lia]. simpl.
    destruct (Z.eqb_spec (calcFrameSize (slice bytes (p + 4) None)) 0); [done|].
    destruct (Z.eqb_spec (len (slice bytes p
      (Some (p + 10 + calcFrameSize (slice bytes (p + 4) None))))) 0); [done|].
    rewrite Hst. f_equal. apply IH.
    pose proof (len_nonneg (slice bytes p
      (Some (p + 10 + calcFrameSize (slice bytes (p + 4) None))))). lia.
Qed.

(** The loop never runs out of the fuel [parseV2Frames] gives it. *)
Lemma trace_has_end (position : Z) (tags : Tags) (r : Run) :
  LoopTrace bytes minor position tags r → run_end r ≠ OutOfFuel.
Proof. induction 1; done. Qed.

Lemma trace_past_end (position : Z) (tags : Tags) (r : Run) :
  LoopTrace bytes minor position tags r → len bytes ≤ position →
  r = mkRun Finished tags [].
Proof. destruct 1; try lia; done. Qed.

End LoopFacts.

Lemma parseV2Frames_trace `{U : Utils, T : Tables} (bytes : bytes) (tags : Tags) :
  LoopTrace bytes (versionMinor tags) 0 tags (parseV2Frames bytes tags).
Proof. apply framesLoop_trace. unfold len. lia. Qed.


(** ** The cursor *)

Section Cursor.
Context {U : Utils} {T : Tables}.
Variables (bytes : bytes) (minor : jsnum).

Lemma trace_first_position (position : Z) (tags : Tags) (r : Run) ev log :
  LoopTrace bytes minor position tags r →
  run_log r = ev :: log → eventPosition ev = position.
Proof. destruct 1; simpl; intros; by simplify_eq. Qed.

(** An event that is not the last is a decoded frame, and the next pass
    starts where its slice ends. *)
Lemma trace_chain (position : Z) (tags : Tags) (r : Run) :
  LoopTrace bytes minor position tags r →
  ∀ l1 ev ev' l2, run_log r = l1 ++ ev :: ev' :: l2 →
    nextPosition ev = Some (eventPosition ev').
Proof.
  induction 1 as [| | | |p tags size sl frame tags' r Hp -> Hnz -> Hne -> Hst Htr IH];
    intros l1 ev ev' l2 Hlog; simpl in Hlog;
    try (by destruct l1 as [|? [|? ?]]; simplify_eq/=).
  destruct l1 as [|ev0 l1]; simplify_eq/=.
  - f_equal. symmetry. eapply trace_first_position; eauto.
  - eapply IH; eauto.
Qed.

(** A padding event is logged where the size field reads zero. *)
Lemma trace_padding_event (position : Z) (tags : Tags) (r : Run) :
  LoopTrace bytes minor position tags r →
  ∀ l1 p l2, run_log r = l1 ++ EvPadding p :: l2 →
    calcFrameSize (slice bytes (p + 4) None) = 0.
Proof.
  induction 1 as [| | | |q tags sz s0 f0 tags' r Hq -> Hnz -> Hne -> Hst Htr IH];
    intros l1 p l2 Hlog; simpl in Hlog;
    try (by destruct l1 as [|? [|? ?]]; simplify_eq/=).
  destruct l1 as [|ev0 l1]; simplify_eq/=. eauto.
Qed.

(** With bytes in the buffer, a size that is not zero is positive and its
    four bytes are all there. *)
Lemma frame_size_facts (position : Z) :
  is_bytes bytes → 0 ≤ position →
  calcFrameSize (slice bytes (position + 4) None) ≠ 0 →
  0 < calcFrameSize (slice bytes (position + 4) None) ∧ position + 8 ≤ len bytes.
Proof.
  intros Hb Hp Hnz. rewrite slice_from in * by lia.
  pose proof (calcFrameSize_nonneg _ (is_bytes_drop _ (Z.to_nat (position + 4)) Hb)).
  split; [lia|].
  destruct (Z.lt_ge_cases (len (drop (Z.to_nat (position + 4)) bytes)) 4) as [Hs|Hs].
  - by apply calcFrameSize_short in Hs.
  - unfold len in *. rewrite length_drop in Hs. lia.
Qed.

Lemma frame_slice_len (position size : Z) :
  0 ≤ position → 0 < size → position < len bytes →
  len (slice bytes position (Some (position + 10 + size)))
  = Z.min (10 + size) (len bytes - position).
Proof. intros. rewrite len_slice_range by lia. lia. Qed.

(** What the log says of a frame event. *)
Lemma trace_frame_event (position : Z) (tags : Tags) (r : Run) :
  LoopTrace bytes minor position tags r →
  is_bytes bytes → 0 ≤ position →
  ∀ l1 p size sl frame l2,
    run_log r = l1 ++ EvFrame p size sl frame :: l2 →
    position ≤ p < len bytes ∧
    size = calcFrameSize (slice bytes (p + 4) None) ∧ 0 < size ∧
    sl = slice bytes p (Some (p + 10 + size)) ∧
    frame = parseFrame sl minor size ∧
    len sl = Z.min (10 + size) (len bytes - p) ∧
    (len sl < 10 + size → l2 = []).
Proof.
  intros Htr Hb.
  induction Htr as [q tags Hq|q tags Hq Hz|q tags sz Hq -> Hnz He
                   |q tags sz s0 f0 e Hq -> Hnz -> Hne -> Hst
                   |q tags sz s0 f0 tags' r Hq -> Hnz -> Hne -> Hst Htr IH];
    intros Hq0 l1 p size sl frame l2 Hlog; simpl in Hlog;
    try (by destruct l1 as [|? [|? ?]]; simplify_eq/=).
  - destruct l1 as [|? [|? ?]]; simplify_eq/=.
    destruct (frame_size_facts p Hb Hq0 Hnz) as [Hpos Hlen].
    pose proof (frame_slice_len p _ Hq0 Hpos Hq). repeat split; auto; lia.
  - destruct (frame_size_facts q Hb Hq0 Hnz) as [Hpos Hlen].
    pose proof (frame_slice_len q _ Hq0 Hpos Hq) as Hsl.
    destruct l1 as [|ev0 l1]; simplify_eq/=.
    + repeat split; auto; try lia.
      intros Hshort.
      assert (Hend : len bytes ≤ p +
        len (slice bytes p (Some (p + 10 + calcFrameSize (slice bytes (p + 4) None)))))
        by lia.
      by rewrite (trace_past_end _ _ _ _ _ Htr Hend).
    + edestruct IH as (? & ? & ? & ? & ? & ? & ?); [lia|done|].
      repeat split; auto; lia.
Qed.

(** At most one pass per eleven bytes, and one more. *)
Lemma trace_steps (position : Z) (tags : Tags) (r : Run) :
  LoopTrace bytes minor position tags r →
  is_bytes bytes → 0 ≤ position →
  run_log r = [] ∨ 11 * (len (run_log r) - 1) ≤ len bytes - position.
Proof.
  intros Htr Hb.
  induction Htr as [| | | |p0 tags size0 sl0 frame0 tags' r Hp -> Hnz -> Hne -> Hst Htr IH];
    intros Hp0; simpl; try (by left); try (right; unfold len in *; simpl; lia).
  right.
  destruct (frame_size_facts p0 Hb Hp0 Hnz) as [Hpos Hlen].
  pose proof (frame_slice_len p0 _ Hp0 Hpos Hp) as Hsl.
  destruct IH as [Hnil|IH]; [lia| |].
  - rewrite Hnil. unfold len in *; simpl; lia.
  - destruct (Z.lt_ge_cases
      (len (slice bytes p0 (Some (p0 + 10 + calcFrameSize (slice bytes (p0 + 4) None)))))
      (10 + calcFrameSize (slice bytes (p0 + 4) None))) as [Hshort|Hfull].
    + rewrite (trace_past_end _ _ _ _ _ Htr) by lia. unfold len in *; simpl; lia.
    + unfold len in *. simpl. lia.
Qed.

(** The loop makes the pass it is due: back at its test with the cursor
    inside the buffer and a size that is not zero there, it hands the slice
    at the cursor to [parseFrame], be the slice whole or cut short. *)
Lemma trace_next_pass (position : Z) (tags : Tags) (r : Run) :
  LoopTrace bytes minor position tags r →
  is_bytes bytes → 0 ≤ position →
  ∀ l1 p,
    l1 `prefix_of` run_log r →
    (l1 = [] ∧ p = position
     ∨ ∃ l0 ev, l1 = l0 ++ [ev] ∧ nextPosition ev = Some p
                ∧ (l1 = run_log r → run_end r = Finished)) →
    p < len bytes →
    calcFrameSize (slice bytes (p + 4) None) ≠ 0 →
    ∃ l2, run_log r
          = l1 ++ EvFrame p (calcFrameSize (slice bytes (p + 4) None))
                    (slice bytes p
                       (Some (p + 10 + calcFrameSize (slice bytes (p + 4) None))))
                    (parseFrame
                       (slice bytes p
                          (Some (p + 10 + calcFrameSize (slice bytes (p + 4) None))))
                       minor (calcFrameSize (slice bytes (p + 4) None))) :: l2.
Proof.
  intros Htr Hb.
  induction Htr as [q tags Hq|q tags Hq Hz|q tags sz Hq -> Hnz He
                   |q tags sz s0 f0 e Hq -> Hnz -> Hne -> Hst
                   |q tags sz s0 f0 tags' r Hq -> Hnz -> Hne -> Hst Htr IH];
    intros Hq0 l1 p Hpre Hat Hp Hsz; cbn [run_log run_end logged] in *.
  - apply prefix_nil_inv in Hpre as ->.
    destruct Hat as [[_ ->]|(l0 & ev & Hl & _)]; [lia|by destruct l0].
  - destruct Hat as [[-> ->]|(l0 & ev & -> & Hnext & _)]; [done|].
    destruct Hpre as [k Hk]. destruct l0 as [|? [|? ?]]; simplify_eq/=.
  - destruct Hat as [[-> ->]|(l0 & ev & -> & Hnext & _)].
    + destruct (frame_size_facts q Hb Hq0 Hnz) as [Hpos Hlen].
      pose proof (frame_slice_len q _ Hq0 Hpos Hq). lia.
    + destruct Hpre as [k Hk]. destruct l0 as [|? [|? ?]]; simplify_eq/=.
  - destruct Hat as [[-> ->]|(l0 & ev & -> & Hnext & Hfin)]; [by exists []|].
    destruct Hpre as [k Hk]. destruct l0 as [|? [|? ?]]; simplify_eq/=.
    by specialize (Hfin eq_refl).
  - destruct (frame_size_facts q Hb Hq0 Hnz) as [Hpos Hlen].
    pose proof (frame_slice_len q _ Hq0 Hpos Hq) as Hsl.
    destruct Hat as [[-> ->]|(l0 & ev & -> & Hnext & Hfin)]; [by eexists|].
    destruct l0 as [|e0 l0]; cbn [app] in *.
    + apply prefix_cons_inv_1 in Hpre as ->. cbn [nextPosition] in Hnext.
      injection Hnext as <-.
      destruct (IH ltac:(lia) [] _ (prefix_nil _) (or_introl (conj eq_refl eq_refl))
                  Hp Hsz) as [l2 Hl2].
      exists l2. by rewrite Hl2.
    + pose proof (prefix_cons_inv_1 _ _ _ _ Hpre) as ->.
      apply prefix_cons_inv_2 in Hpre.
      destruct (IH ltac:(lia) (l0 ++ [ev]) p Hpre) as [l2 Hl2]; [|done|done|].
      * right. exists l0, ev. split; [done|]. split; [done|].
        intros Heq. apply Hfin. by rewrite Heq.
      * exists l2. by rewrite Hl2.
Qed.

End Cursor.

(** ** Frame slices (C1) *)

(** C1, as stated, fails: the buffer [truncatedBuffer] has a valid header
    and one title frame that declares five payload bytes but holds three.
    The 13 bytes that remain are handed to the decoder, not 15, and the
    partial frame is decoded and stored as the title. *)
Lemma truncated_frame_is_decoded :
  ¬ exactSlices (parseV2Frames (U:=SpecModel.utils) (T:=SpecModel.tables)
                   Samples.truncatedBody (headerTags Samples.version230))
  ∧ parseV2Data (U:=SpecModel.utils) (T:=SpecModel.tables)
      (Some Samples.truncatedBuffer)
    = RTags (<[str "title" := TValue (VStr (str "ab"))]>
               (headerTags Samples.version230)).
Proof.
  split.
  - intros Hexact.
    specialize (Hexact 5 Samples.truncatedTitle).
    assert (Hin : (5, Samples.truncatedTitle)
                  ∈ handedSlices (parseV2Frames (U:=SpecModel.utils) (T:=SpecModel.tables)
                       Samples.truncatedBody (headerTags Samples.version230))).
    { by_compute. }
    apply Hexact in Hin. vm_compute in Hin. discriminate.
  - vm_compute. reflexivity.
Qed.

(** C1, amended: over a body of bytes, the slice handed to the decoder at
    cursor [p] is [bytes.slice(p, p + 10 + size)] for the size its header
    declares.  Its length is 10 + size when that many bytes remain; when
    fewer remain, the remaining bytes (at least 8) are handed to the decoder
    all the same, and that frame is the last of the run.  The second part
    says that the loop does hand them over: whenever it is back at its test
    with the cursor inside the body and a size that is not zero there, the
    next pass decodes the slice at the cursor, and a slice cut short by the
    end of the body is everything from the cursor on. *)
Theorem handed_slice_is_declared_or_rest `{U : Utils, T : Tables}
    (bytes : bytes) (tags : Tags) :
  is_bytes bytes →
  (∀ l1 p size sl frame l2,
     run_log (parseV2Frames bytes tags) = l1 ++ EvFrame p size sl frame :: l2 →
     size = calcFrameSize (slice bytes (p + 4) None) ∧ 0 < size ∧
     sl = slice bytes p (Some (p + 10 + size)) ∧
     frame = parseFrame sl (versionMinor tags) size ∧
     len sl = Z.min (10 + size) (len bytes - p) ∧
     (10 + size ≤ len bytes - p → len sl = 10 + size) ∧
     (len bytes - p < 10 + size → len sl = len bytes - p ∧ 8 ≤ len sl ∧ l2 = []))
  ∧ (∀ l1 p size,
       cursorAfter (parseV2Frames bytes tags) l1 p →
       p < len bytes →
       size = calcFrameSize (slice bytes (p + 4) None) →
       size ≠ 0 →
       ∃ l2,
         run_log (parseV2Frames bytes tags)
         = l1 ++ EvFrame p size (slice bytes p (Some (p + 10 + size)))
                   (parseFrame (slice bytes p (Some (p + 10 + size)))
                      (versionMinor tags) size) :: l2
         ∧ (len bytes - p < 10 + size →
            slice bytes p (Some (p + 10 + size)) = drop (Z.to_nat p) bytes
            ∧ l2 = [])).
Proof.
  intros Hb. pose proof (parseV2Frames_trace bytes tags) as Htr. split.
  - intros l1 p size sl frame l2 Hlog.
    destruct (trace_frame_event _ _ _ _ _ Htr Hb (Z.le_refl 0) _ _ _ _ _ _ Hlog)
      as ([Hp0 Hp] & Hsize & Hpos & Hsl & Hframe & Hlen & Hlast).
    assert (Hnz : calcFrameSize (slice bytes (p + 4) None) ≠ 0) by lia.
    destruct (frame_size_facts bytes p Hb Hp0 Hnz) as [_ H8].
    repeat split; auto; try lia.
    apply Hlast. lia.
  - intros l1 p size [Hpre Hat] Hp -> Hnz.
    destruct (trace_next_pass _ _ _ _ _ Htr Hb (Z.le_refl 0) l1 p Hpre Hat Hp Hnz)
      as [l2 Hlog].
    exists l2. split; [done|]. intros Hshort.
    destruct (trace_frame_event _ _ _ _ _ Htr Hb (Z.le_refl 0) _ _ _ _ _ _ Hlog)
      as ([Hp0 _] & _ & Hpos & _ & _ & Hlen & Hlast).
    split; [|apply Hlast; lia].
    rewrite slice_range by lia. apply take_ge.
    rewrite length_drop. unfold len in *. lia.
Qed.

Lemma handed_slice_witness :
  ∃ l2,
    run_log (parseV2Frames (U:=SpecModel.utils) (T:=SpecModel.tables)
               Samples.truncatedBody (headerTags Samples.version230))
    = [] ++ EvFrame 0 5 (slice Samples.truncatedBody 0 (Some (0 + 10 + 5)))
              (parseFrame (U:=SpecModel.utils) (T:=SpecModel.tables)
                 (slice Samples.truncatedBody 0 (Some (0 + 10 + 5)))
                 (versionMinor (headerTags Samples.version230)) 5) :: l2
    ∧ (len Samples.truncatedBody - 0 < 10 + 5 →
       slice Samples.truncatedBody 0 (Some (0 + 10 + 5))
       = drop (Z.to_nat 0) Samples.truncatedBody
       ∧ l2 = []).
Proof.
  refine (proj2
    (handed_slice_is_declared_or_rest (U:=SpecModel.utils) (T:=SpecModel.tables)
       Samples.truncatedBody (headerTags Samples.version230) _) [] 0 5 _ _ _ _).
  - by_compute.
  - split; [apply prefix_nil|by left].
  - vm_compute. reflexivity.
  - vm_compute. reflexivity.
  - discriminate.
Defined.

(** ** Termination of the frame loop (C5) *)

(** C5: over a body of [N] bytes the loop ends, after at most [N/11 + 1]
    passes; a pass that reads size 0 is the last, and a pass that is not the
    last decoded a frame of non-zero size and moved the cursor by the length
    of its slice. *)
Theorem frame_loop_step_bound `{U : Utils, T : Tables} (bytes : bytes) (tags : Tags) :
  is_bytes bytes →
  run_end (parseV2Frames bytes tags) ≠ OutOfFuel ∧
  Z.of_nat (loopSteps (parseV2Frames bytes tags)) ≤ len bytes / 11 + 1 ∧
  (∀ l1 p l2, run_log (parseV2Frames bytes tags) = l1 ++ EvPadding p :: l2 →
     calcFrameSize (slice bytes (p + 4) None) = 0 ∧ l2 = []) ∧
  (∀ l1 ev ev' l2, run_log (parseV2Frames bytes tags) = l1 ++ ev :: ev' :: l2 →
     ∃ p size sl frame,
       ev = EvFrame p size sl frame ∧ size ≠ 0 ∧
       sl = slice bytes p (Some (p + 10 + size)) ∧
       eventPosition ev' = p + len sl).
Proof.
  intros Hb. pose proof (parseV2Frames_trace bytes tags) as Htr.
  split; [by eapply trace_has_end|]. split; [|split].
  - unfold loopSteps.
    destruct (trace_steps _ _ _ _ _ Htr Hb (Z.le_refl 0)) as [->|Hsteps].
    + simpl. pose proof (Z.div_pos (len bytes) 11 (len_nonneg bytes)). lia.
    + unfold len in Hsteps at 1.
      assert (Z.of_nat (length (run_log (parseV2Frames bytes tags))) - 1
              ≤ len bytes / 11); [|lia].
      apply Z.div_le_lower_bound; lia.
  - intros l1 p l2 Hlog.
    assert (Hl2 : l2 = []).
    { destruct l2 as [|ev' l2]; [done|].
      by specialize (trace_chain _ _ _ _ _ Htr _ _ _ _ Hlog). }
    split; [|done]. by eapply trace_padding_event.
  - intros l1 ev ev' l2 Hlog.
    pose proof (trace_chain _ _ _ _ _ Htr _ _ _ _ Hlog) as Hnext.
    destruct ev as [?|? ?|p size sl frame]; simplify_eq/=.
    destruct (trace_frame_event _ _ _ _ _ Htr Hb (Z.le_refl 0) _ _ _ _ _ _ Hlog)
      as (_ & _ & Hpos & Hsl & _).
    exists p, size, sl, frame. repeat split; auto; lia.
Qed.

Lemma frame_loop_step_bound_witness :
  Z.of_nat (loopSteps (parseV2Frames (U:=SpecModel.utils) (T:=SpecModel.tables)
                         Samples.paddedBody (headerTags Samples.version230)))
  ≤ len Samples.paddedBody / 11 + 1.
Proof.
  refine (proj1 (proj2
    (frame_loop_step_bound (U:=SpecModel.utils) (T:=SpecModel.tables)
       Samples.paddedBody (headerTags Samples.version230) _))).
  by_compute.
Defined.

(** ** The header (C6, C7) *)

Lemma SpecModel_decodesMagic : decodesMagic SpecModel.utils.
Proof.
  intros bs Hb Hlen. simpl. unfold SpecModel.decodeUTF8, SpecModel.readable, magic.
  destruct bs as [|a [|b [|c r]]]; unfold len in Hlen; simpl in Hlen; try lia.
  change (Z.to_nat 3) with 3%nat. simpl take.
  repeat (apply Forall_cons in Hb as [? Hb]). unfold is_byte in *.
  change (str "ID3") with [73; 68; 51]. simpl fmap.
  split.
  - intros Heq.
    repeat match goal with
           | H : context [Z.ltb ?x 128] |- _ => destruct (Z.ltb_spec x 128)
           | H : context [Z.leb 0 ?x] |- _ => destruct (Z.leb_spec 0 x)
           end; simpl in Heq; simplify_eq; done.
  - intros Heq. by simplify_eq.
Qed.

Lemma SpecModel_decodesLatin1 : decodesLatin1 SpecModel.utils.
Proof. by intros bs _. Qed.

Section Header.
Context {U : Utils} {T : Tables}.

Lemma parseV2Header_ten (bs : bytes) :
  10 ≤ len bs →
  parseV2Header bs =
    if strEq (readBytesToUTF8 bs (Some 3)) (str "ID3")
    then Some (headerTags (headerVersion bs)) else None.
Proof.
  intros Hlen. unfold parseV2Header.
  destruct (Z.ltb_spec (len bs) 10); [lia|].
  by destruct (strEq _ _).
Qed.

Lemma header_slice (bytes : bytes) :
  20 ≤ len bytes →
  slice bytes 0 (Some 10) = take 10 bytes ∧ len (take 10 bytes) = 10.
Proof.
  intros Hlen. rewrite slice_range by lia. simpl. split; [done|].
  unfold len in *. rewrite length_take. lia.
Qed.

(** The header test of [parseV2Data] on a buffer of twenty bytes or more. *)
Lemma header_accepts_magic (bytes : bytes) :
  decodesMagic U → is_bytes bytes → 20 ≤ len bytes →
  parseV2Header (slice bytes 0 (Some 10)) =
    if bool_decide (take 3 bytes = magic)
    then Some (headerTags (headerVersion (take 10 bytes))) else None.
Proof.
  intros HU Hb Hlen. destruct (header_slice bytes Hlen) as [-> Hten].
  rewrite parseV2Header_ten by lia.
  assert (Htake : take 3 (take 10 bytes) = take 3 bytes).
  { by rewrite take_take. }
  specialize (HU (take 10 bytes) (Forall_take _ _ _ Hb) ltac:(lia)).
  rewrite Htake in HU. unfold strEq.
  destruct (decide (take 3 bytes = magic)) as [Hm|Hm].
  - rewrite (bool_decide_eq_true_2 _ Hm).
    by rewrite bool_decide_eq_true_2 by by apply HU.
  - rewrite (bool_decide_eq_false_2 _ Hm).
    rewrite bool_decide_eq_false_2; [done|]. by rewrite HU.
Qed.

Lemma versionFlags_header (v : Version) : versionFlags (headerTags v) = flags v.
Proof. unfold versionFlags, headerTags. by rewrite lookup_singleton_eq. Qed.

Lemma get_take {A} (l : list A) (n : nat) (i : Z) :
  i < Z.of_nat n → get (take n l) i = get l i.
Proof.
  intros Hi. unfold get. destruct (Z.ltb_spec i 0); [done|].
  apply lookup_take_lt. lia.
Qed.

End Header.

(** C6: a buffer of at least 20 bytes that starts with the magic and has
    bit 0x80 of its flag byte (byte 5) set makes [parseV2Data] throw the
    unsupported-feature error; it returns neither a tag record nor
    [false]. *)
Theorem unsync_flag_throws `{U : Utils, T : Tables} (bytes : bytes) (flagByte : Z) :
  decodesMagic U → is_bytes bytes → 20 ≤ len bytes →
  take 3 bytes = magic →
  get bytes 5 = Some flagByte → Z.land flagByte 0x80 ≠ 0 →
  parseV2Data (Some bytes) = RThrow UnsyncError
  ∧ parseV2Data (Some bytes) ≠ RFalse
  ∧ ∀ tags, parseV2Data (Some bytes) ≠ RTags tags.
Proof.
  intros HU Hb Hlen Hmagic Hflag Hbit.
  assert (Hthrow : parseV2Data (Some bytes) = RThrow UnsyncError).
  { unfold parseV2Data, V2_MIN_LENGTH.
    destruct (Z.ltb_spec (len bytes) 20); [lia|].
    rewrite header_accepts_magic by done.
    rewrite (bool_decide_eq_true_2 _ Hmagic), versionFlags_header.
    unfold headerVersion. cbn [flags unsync].
    rewrite get_take by lia. rewrite Hflag. cbn [band].
    by destruct (Z.eqb_spec (Z.land flagByte 128) 0). }
  rewrite Hthrow. by repeat split.
Qed.

Lemma unsync_flag_throws_witness :
  parseV2Data (U:=SpecModel.utils) (T:=SpecModel.tables)
    (Some (Samples.header 0x80 15 ++ Samples.truncatedTitle))
  = RThrow UnsyncError.
Proof.
  refine (proj1 (unsync_flag_throws (U:=SpecModel.utils) (T:=SpecModel.tables)
            (Samples.header 0x80 15 ++ Samples.truncatedTitle) 0x80
            SpecModel_decodesMagic _ _ _ _ _)).
  - by_compute.
  - vm_compute. discriminate.
  - reflexivity.
  - reflexivity.
  - vm_compute. discriminate.
Defined.

(** ** The tag assembler (C7, C8) *)

Section Assembler.
Context {U : Utils} {T : Tables}.

Lemma parseFrame_fromTable (bs : bytes) (mi : jsnum) (size : Z) :
  frameFromTable (parseFrame bs mi size).
Proof.
  intros tag. unfold parseFrame.
  destruct (negb (isZero (get bs 9))); [done|].
  destruct (FrameTypeMap !! readBytesToUTF8 bs (Some 4)) as [tg|] eqn:Hid; [|done].
  cbn [frame_tag frame_id]. by intros [= <-].
Qed.

Lemma storeAll_snoc (tags : Tags) (frames : list Frame) (frame : Frame) :
  storeAll tags (frames ++ [frame]) =
    match storeAll tags frames with
    | inl e => inl e
    | inr tags' => storeFrame tags' frame
    end.
Proof.
  revert tags. induction frames as [|f frames IH]; intros tags; simpl.
  - by destruct (storeFrame tags frame).
  - destruct (storeFrame tags f); [done|]. apply IH.
Qed.

Lemma valuesFor_snoc (tag : jsstring) (frames : list Frame) (frame : Frame) :
  valuesFor tag (frames ++ [frame]) =
    valuesFor tag frames ++
      (if decide (frame_tag frame = Some tag) then [frame_value frame] else []).
Proof.
  unfold valuesFor. rewrite filter_app, fmap_app. f_equal.
  rewrite filter_cons, filter_nil. by destruct (decide _).
Qed.

Lemma expectedEntry_snoc (multi : bool) (values : list FrameValue) (v : FrameValue) :
  expectedEntry multi (values ++ [v]) =
    Some (if multi then TArray (values ++ [v]) else TValue v).
Proof.
  unfold expectedEntry. destruct multi.
  - by destruct values.
  - by rewrite last_snoc.
Qed.

Lemma storeFrame_assembled (v : Version) (frames : list Frame) (tags : Tags)
    (frame : Frame) :
  tablesConsistent T → frameFromTable frame →
  Assembled v frames tags →
  ∃ tags', storeFrame tags frame = inr tags' ∧ Assembled v (frames ++ [frame]) tags'.
Proof.
  intros (Hversion & Hclass & _) Hframe [Hv Htags]. unfold storeFrame.
  destruct (frame_tag frame) as [tf|] eqn:Htf.
  2:{ exists tags. split; [done|]. split; [done|].
      intros id tag Hid Htruthy. rewrite valuesFor_snoc, Htf.
      rewrite decide_False by done. rewrite app_nil_r. by apply Htags. }
  destruct (truthyString tf) eqn:Htruthy.
  2:{ exists tags. split; [done|]. split; [done|].
      intros id tag Hid Ht. rewrite valuesFor_snoc, Htf.
      rewrite decide_False by congruence. rewrite app_nil_r. by apply Htags. }
  specialize (Hframe tf Htf).
  assert (Hnv : tf ≠ str "version") by (intros ->; by eapply Hversion).
  pose proof (Htags _ _ Hframe Htruthy) as Hcur.
  fold (isArrayId (frame_id frame)).
  assert (Hnew : ∀ e : TagEntry,
    e = (if isArrayId (frame_id frame)
         then TArray (valuesFor tf frames ++ [frame_value frame])
         else TValue (frame_value frame)) →
    Assembled v (frames ++ [frame]) (<[tf := e]> tags)).
  { intros e ->. split; [by rewrite lookup_insert_ne|].
    intros id tag Hid Ht. rewrite valuesFor_snoc, Htf.
    destruct (decide (tf = tag)) as [<-|Hne].
    - rewrite decide_True by done. rewrite lookup_insert_eq, expectedEntry_snoc.
      by rewrite (Hclass _ _ _ Hid Hframe).
    - rewrite decide_False by congruence. rewrite app_nil_r.
      rewrite lookup_insert_ne by done. by apply Htags. }
  destruct (isArrayId (frame_id frame)) eqn:Harr.
  - rewrite Hcur. unfold expectedEntry.
    destruct (valuesFor tf frames) as [|v0 vs] eqn:Hvals.
    + eexists. split; [done|]. by apply Hnew.
    + eexists. split; [done|]. by apply Hnew.
  - eexists. split; [done|]. by apply Hnew.
Qed.

(** With consistent tables, storing decoded frames never throws, and the
    record is as the claim says. *)
Lemma storeAll_assembled (v : Version) (frames : list Frame) :
  tablesConsistent T → Forall frameFromTable frames →
  ∃ tags, storeAll (headerTags v) frames = inr tags ∧ Assembled v frames tags.
Proof.
  intros HT. induction frames as [|frame frames IH] using rev_ind; intros Hfs.
  - exists (headerTags v). split; [done|]. split.
    + unfold headerTags. by rewrite lookup_singleton_eq.
    + intros id tag Hid _. unfold headerTags.
      rewrite lookup_singleton_ne by (intros <-; by eapply (proj1 HT)).
      by destruct (isArrayId id).
  - apply Forall_app in Hfs as [Hfs Hf%Forall_inv].
    destruct (IH Hfs) as (tags & Hstore & Hass).
    destruct (storeFrame_assembled v frames tags frame HT Hf Hass) as (tags' & Hst & Hass').
    exists tags'. split; [|done]. by rewrite storeAll_snoc, Hstore.
Qed.

(** The loop stores the frames it decodes, in order, and stops at the first
    store that throws. *)
Lemma trace_storeAll (bs : bytes) (mi : jsnum) (position : Z) (tags : Tags) (r : Run) :
  LoopTrace bs mi position tags r →
  Forall frameFromTable (framesOf (run_log r)) ∧
  match run_end r with
  | Finished => storeAll tags (framesOf (run_log r)) = inr (run_tags r)
  | Thrown e => storeAll tags (framesOf (run_log r)) = inl e
  | OutOfFuel => False
  end.
Proof.
  induction 1 as [| | |q tags sz s0 f0 e Hq -> Hnz -> Hne -> Hst
                 |q tags sz s0 f0 tags' r Hq -> Hnz -> Hne -> Hst Htr [IHf IH]];
    simpl; try (split; [by constructor|done]).
  - split; [|by rewrite Hst].
    apply Forall_singleton, parseFrame_fromTable.
  - split; [|by rewrite Hst].
    apply Forall_cons; split; [apply parseFrame_fromTable|done].
Qed.

(** [parseV2Frames] on the record of a header. *)
Lemma parseV2Frames_assembled (bs : bytes) (v : Version) :
  tablesConsistent T →
  run_end (parseV2Frames bs (headerTags v)) = Finished ∧
  storeAll (headerTags v) (framesOf (run_log (parseV2Frames bs (headerTags v))))
    = inr (run_tags (parseV2Frames bs (headerTags v))) ∧
  Assembled v (framesOf (run_log (parseV2Frames bs (headerTags v))))
    (run_tags (parseV2Frames bs (headerTags v))).
Proof.
  intros HT.
  destruct (trace_storeAll _ _ _ _ _ (parseV2Frames_trace bs (headerTags v)))
    as [Hfs Hend].
  destruct (storeAll_assembled v _ HT Hfs) as (tags & Hstore & Hass).
  destruct (run_end (parseV2Frames bs (headerTags v))); [|congruence|done].
  rewrite Hstore in Hend. by simplify_eq.
Qed.

End Assembler.

Lemma SpecModel_tablesConsistent : tablesConsistent SpecModel.tables.
Proof.
  split.
  - assert (Hall : map_Forall (λ _ tag, tag ≠ str "version") SpecModel.frameTypes)
      by by_compute.
    intros id Hid. by apply Hall in Hid.
  - assert (Hall : map_Forall (λ id1 tag1,
                      map_Forall (λ id2 tag2,
                        tag1 = tag2 →
                        isArrayId (T:=SpecModel.tables) id1
                        = isArrayId (T:=SpecModel.tables) id2)
                      SpecModel.frameTypes) SpecModel.frameTypes)
      by by_compute.
    split.
    + intros id1 id2 tag H1 H2. exact (Hall _ _ H1 _ _ H2 eq_refl).
    + assert (Hnames : map_Forall (λ _ tag, tag ∉ inheritedNames) SpecModel.frameTypes)
        by by_compute.
      intros id tag Hid. by apply Hnames in Hid.
Qed.

(** C7: [parseV2Data] returns [false] exactly when the buffer is missing,
    is shorter than 20 bytes, or does not start with the three bytes of
    [ID3]; in every other case it throws the unsupported-feature error or
    returns a tag record. *)
Theorem absent_exactly_when `{U : Utils, T : Tables} (buffer : option bytes) :
  decodesMagic U → tablesConsistent T →
  (∀ bs, buffer = Some bs → is_bytes bs) →
  (parseV2Data buffer = RFalse ↔
     buffer = None ∨
     ∃ bs, buffer = Some bs ∧ (len bs < 20 ∨ take 3 bs ≠ magic))
  ∧ (parseV2Data buffer = RFalse
     ∨ parseV2Data buffer = RThrow UnsyncError
     ∨ ∃ tags, parseV2Data buffer = RTags tags).
Proof.
  intros HU HT Hb. destruct buffer as [bs|]; unfold parseV2Data.
  2:{ split; [|by left]. split; [by left|done]. }
  specialize (Hb bs eq_refl). unfold V2_MIN_LENGTH.
  destruct (Z.ltb_spec (len bs) 20) as [Hshort|Hlong].
  { split; [|by left]. split; [|done]. intros _. right. exists bs. auto. }
  rewrite header_accepts_magic by done.
  destruct (decide (take 3 bs = magic)) as [Hm|Hm].
  - rewrite (bool_decide_eq_true_2 _ Hm), versionFlags_header.
    destruct (unsync _).
    + split; [|by right; left]. split; [done|].
      intros [?|(bs' & [= <-] & [?|?])]; [done|lia|done].
    + destruct (parseV2Frames_assembled (U:=U)
                  (slice bs
                     (10 + (if xheader (flags (headerVersion (take 10 bs)))
                            then calcTagSize (slice bs 10 (Some 14)) else 0))
                     (Some (calcTagSize (slice bs 6 (Some 10)) +
                            (10 + (if xheader (flags (headerVersion (take 10 bs)))
                                   then calcTagSize (slice bs 10 (Some 14)) else 0)))))
                  (headerVersion (take 10 bs)) HT) as (Hend & _ & _).
      rewrite Hend.
      split; [|right; right; eauto]. split; [done|].
      intros [?|(bs' & [= <-] & [?|?])]; [done|lia|done].
  - rewrite (bool_decide_eq_false_2 _ Hm).
    split; [|by left]. split; [|done]. intros _. right. exists bs. auto.
Qed.

Lemma absent_exactly_when_witness :
  parseV2Data (U:=SpecModel.utils) (T:=SpecModel.tables) (Some Samples.truncatedBuffer)
    = RFalse
  ∨ parseV2Data (U:=SpecModel.utils) (T:=SpecModel.tables) (Some Samples.truncatedBuffer)
    = RThrow UnsyncError
  ∨ ∃ tags, parseV2Data (U:=SpecModel.utils) (T:=SpecModel.tables)
              (Some Samples.truncatedBuffer) = RTags tags.
Proof.
  refine (proj2 (absent_exactly_when (U:=SpecModel.utils) (T:=SpecModel.tables)
            (Some Samples.truncatedBuffer)
            SpecModel_decodesMagic SpecModel_tablesConsistent _)).
  intros bs [= <-]. by_compute.
Defined.

(** C8: with the record of the header as the start, a semantic tag of the
    table holds, after any sequence of decoded frames, the list of the
    values of all frames that carry it, in encounter order, when its
    identifier is multi-valued, and the value of the last such frame
    otherwise; storing never throws.  The record [parseV2Frames] leaves is
    the one obtained from the frames it decoded, in the order of the
    buffer. *)
Theorem multi_valued_tags_accumulate `{U : Utils, T : Tables}
    (frames : list Frame) (bytes : bytes) (v : Version) (id tag : jsstring) :
  tablesConsistent T →
  Forall frameFromTable frames →
  FrameTypeMap !! id = Some tag → truthyString tag = true →
  (∃ tags, storeAll (headerTags v) frames = inr tags ∧
           tags !! tag = expectedEntry (isArrayId id) (valuesFor tag frames))
  ∧ run_end (parseV2Frames bytes (headerTags v)) = Finished
  ∧ storeAll (headerTags v) (framesOf (run_log (parseV2Frames bytes (headerTags v))))
    = inr (run_tags (parseV2Frames bytes (headerTags v)))
  ∧ run_tags (parseV2Frames bytes (headerTags v)) !! tag
    = expectedEntry (isArrayId id)
        (valuesFor tag (framesOf (run_log (parseV2Frames bytes (headerTags v))))).
Proof.
  intros HT Hfs Hid Htruthy. split.
  - destruct (storeAll_assembled v frames HT Hfs) as (tags & Hstore & _ & Htags).
    exists tags. split; [done|]. by apply Htags.
  - destruct (parseV2Frames_assembled (U:=U) bytes v HT) as (Hend & Hstore & _ & Htags).
    repeat split; [done|done|]. by apply Htags.
Qed.

Lemma multi_valued_tags_accumulate_witness :
  run_tags (parseV2Frames (U:=SpecModel.utils) (T:=SpecModel.tables)
              Samples.commentsBody (headerTags Samples.version230))
    !! str "comments"
  = expectedEntry (isArrayId (T:=SpecModel.tables) (str "COMM"))
      (valuesFor (str "comments")
         (framesOf (run_log
            (parseV2Frames (U:=SpecModel.utils) (T:=SpecModel.tables)
               Samples.commentsBody (headerTags Samples.version230))))).
Proof.
  refine (proj2 (proj2 (proj2
    (multi_valued_tags_accumulate (U:=SpecModel.utils) (T:=SpecModel.tables)
       [] Samples.commentsBody Samples.version230 (str "COMM") (str "comments")
       SpecModel_tablesConsistent _ _ _)))).
  - constructor.
  - vm_compute. reflexivity.
  - reflexivity.
Defined.

(** The sample of the claim: two comment frames in different languages end
    up in one list, in encounter order, and the later title replaces the
    earlier. *)
Example comments_accumulate_in_order :
  run_tags (parseV2Frames (U:=SpecModel.utils) (T:=SpecModel.tables)
              Samples.commentsBody (headerTags Samples.version230))
  = <[str "title" := TValue (VStr (str "cd"))]>
      (<[str "comments" :=
           TArray [VComment (str "eng") (Some []) (Some (str "hi"));
                   VComment (str "fra") (Some []) (Some (str "yo"))]]>
         (headerTags Samples.version230)).
Proof. vm_compute. reflexivity. Qed.

(** ** Frames with format flags (C9) *)

Section Skip.
Context {U : Utils} {T : Tables}.

Lemma shiftRun_logged (k : Z) (ev : Event) (r : Run) :
  shiftRun k (logged ev r) = logged (shiftEvent k ev) (shiftRun k r).
Proof. done. Qed.

(** The loop does not see what lies before the cursor: bytes put in front
    of a buffer shift the cursor and change nothing else. *)
Lemma trace_shift (pre bs : bytes) (mi : jsnum) (position : Z) (tags : Tags) (r : Run) :
  LoopTrace bs mi position tags r →
  is_bytes bs → 0 ≤ position →
  LoopTrace (pre ++ bs) mi (len pre + position) tags (shiftRun (len pre) r).
Proof.
  intros Htr Hb.
  assert (Hsize : ∀ q, 0 ≤ q →
    calcFrameSize (slice (pre ++ bs) (len pre + q + 4) None)
    = calcFrameSize (slice bs (q + 4) None)).
  { intros q Hq. rewrite <- Z.add_assoc. by rewrite slice_app_shift_from by lia. }
  assert (Hslice : ∀ q size, 0 ≤ q → 0 < size →
    slice (pre ++ bs) (len pre + q) (Some (len pre + q + 10 + size))
    = slice bs q (Some (q + 10 + size))).
  { intros q size Hq Hs.
    replace (len pre + q + 10 + size) with (len pre + (q + 10 + size)) by lia.
    apply slice_app_shift_range; lia. }
  induction Htr as [q tags Hq|q tags Hq Hz|q tags sz Hq -> Hnz He
                   |q tags sz s0 f0 e Hq -> Hnz -> Hne -> Hst
                   |q tags sz s0 f0 tags' r Hq -> Hnz -> Hne -> Hst Htr IH];
    intros Hq0.
  - apply trace_exit. rewrite len_app. lia.
  - apply trace_padding; [rewrite len_app; lia|]. by rewrite Hsize.
  - destruct (frame_size_facts bs q Hb Hq0 Hnz) as [Hpos _].
    apply trace_empty; rewrite ?Hsize, ?Hslice; try done. rewrite len_app; lia.
  - destruct (frame_size_facts bs q Hb Hq0 Hnz) as [Hpos _].
    unfold shiftRun; simpl.
    eapply trace_throw; rewrite ?Hsize, ?Hslice; try done. rewrite len_app; lia.
  - destruct (frame_size_facts bs q Hb Hq0 Hnz) as [Hpos _].
    rewrite shiftRun_logged. simpl.
    eapply trace_frame; rewrite ?Hsize, ?Hslice; try done.
    + rewrite len_app; lia.
    + rewrite <- Z.add_assoc. apply IH.
      pose proof (len_nonneg (slice bs q
        (Some (q + 10 + calcFrameSize (slice bs (q + 4) None))))). lia.
Qed.

(** A frame with its second flag byte set yields no tag and no value. *)
Lemma parseFrame_flagged (frame : bytes) (mi : jsnum) (size flag2 : Z) :
  get frame 9 = Some flag2 → flag2 ≠ 0 →
  parseFrame frame mi size = mkFrame (readBytesToUTF8 frame (Some 4)) None VNull.
Proof.
  intros Hflag Hnz. unfold parseFrame. rewrite Hflag.
  by destruct flag2.
Qed.

Lemma declaredSize_facts (frame : bytes) :
  is_bytes frame → declaredSize frame ≠ 0 →
  0 < declaredSize frame ∧ 4 ≤ len (drop 4 frame).
Proof.
  intros Hb Hnz. unfold declaredSize in *. rewrite slice_from in * by lia.
  change (Z.to_nat 4) with 4%nat in *.
  pose proof (calcFrameSize_nonneg _ (is_bytes_drop _ 4 Hb)).
  split; [lia|].
  destruct (Z.lt_ge_cases (len (drop 4 frame)) 4) as [Hs|Hs]; [|done].
  by apply calcFrameSize_short in Hs.
Qed.

(** A whole frame at the cursor is the slice the loop takes. *)
Lemma whole_frame_at_cursor (pre frame rest : bytes) :
  is_bytes frame → declaredSize frame ≠ 0 →
  len frame = 10 + declaredSize frame →
  calcFrameSize (slice (pre ++ frame ++ rest) (len pre + 4) None) = declaredSize frame
  ∧ slice (pre ++ frame ++ rest) (len pre)
      (Some (len pre + 10 + declaredSize frame)) = frame.
Proof.
  intros Hb Hnz Hlen.
  destruct (declaredSize_facts frame Hb Hnz) as [Hpos H4].
  split.
  - rewrite slice_app_shift_from by lia. unfold declaredSize.
    rewrite !slice_from by lia. change (Z.to_nat 4) with 4%nat.
    rewrite drop_app_le by (unfold len in *; rewrite length_drop in H4; lia).
    by apply calcFrameSize_app.
  - replace (len pre) with (len pre + 0) at 1 by lia.
    rewrite <- Z.add_assoc.
    rewrite slice_app_shift_range by lia.
    rewrite slice_range by lia. change (Z.to_nat 0) with 0%nat. rewrite drop_0.
    rewrite Z.sub_0_r, <- Hlen. unfold len. rewrite Nat2Z.id.
    by rewrite take_app_length.
Qed.

(** The loop at a flagged frame, wherever the frame stands in the body. *)
Lemma trace_flagged_frame (pre frame rest : bytes) (mi : jsnum) (tags : Tags)
    (flag2 : Z) :
  is_bytes (frame ++ rest) →
  declaredSize frame ≠ 0 →
  len frame = 10 + declaredSize frame →
  get frame 9 = Some flag2 → flag2 ≠ 0 →
  LoopTrace (pre ++ frame ++ rest) mi (len pre) tags
    (logged (EvFrame (len pre) (declaredSize frame) frame
               (parseFrame frame mi (declaredSize frame)))
       (shiftRun (len pre + len frame) (framesLoop (length rest) rest mi 0 tags))).
Proof.
  intros Hb Hnz Hlen Hflag Hflag2.
  apply Forall_app in Hb as [Hbf Hbr].
  destruct (whole_frame_at_cursor pre frame rest Hbf Hnz Hlen) as [Hsize Hslice].
  destruct (declaredSize_facts frame Hbf Hnz) as [Hpos _].
  pose proof (len_nonneg pre). pose proof (len_nonneg rest).
  eapply trace_frame.
  - rewrite !len_app. lia.
  - by rewrite Hsize.
  - done.
  - by rewrite Hslice.
  - lia.
  - done.
  - by rewrite (parseFrame_flagged frame mi _ flag2).
  - pose proof (trace_shift (pre ++ frame) rest mi 0 tags _
      (framesLoop_trace rest mi (length rest) 0 tags ltac:(unfold len; lia))
      Hbr (Z.le_refl 0)) as Hsh.
    by rewrite <- app_assoc, len_app, Z.add_0_r in Hsh.
Qed.

End Skip.

(** C9: a frame whose second flag byte (byte 9) is not zero gives no
    semantic tag and no value and leaves the tag record as it is; the
    cursor moves past the whole frame, and from there the loop runs as it
    runs over the rest of the body alone: same decoded frames, same record,
    with every cursor moved by the bytes in front. *)
Theorem flagged_frame_is_skipped `{U : Utils, T : Tables}
    (pre frame rest : bytes) (mi : jsnum) (tags : Tags) (flag2 : Z) :
  is_bytes (frame ++ rest) →
  declaredSize frame ≠ 0 →
  len frame = 10 + declaredSize frame →
  get frame 9 = Some flag2 → flag2 ≠ 0 →
  frame_tag (parseFrame frame mi (declaredSize frame)) = None
  ∧ frame_value (parseFrame frame mi (declaredSize frame)) = VNull
  ∧ storeFrame tags (parseFrame frame mi (declaredSize frame)) = inr tags
  ∧ LoopTrace (pre ++ frame ++ rest) mi (len pre) tags
      (logged (EvFrame (len pre) (declaredSize frame) frame
                 (parseFrame frame mi (declaredSize frame)))
         (shiftRun (len pre + len frame)
            (framesLoop (length rest) rest mi 0 tags)))
  ∧ parseV2Frames (frame ++ rest) tags
    = logged (EvFrame 0 (declaredSize frame) frame
                (parseFrame frame (versionMinor tags) (declaredSize frame)))
        (shiftRun (len frame) (parseV2Frames rest tags)).
Proof.
  intros Hb Hnz Hlen Hflag Hflag2.
  rewrite (parseFrame_flagged frame mi _ flag2 Hflag Hflag2).
  split; [done|]. split; [done|]. split; [done|].
  rewrite <- (parseFrame_flagged frame mi (declaredSize frame) flag2 Hflag Hflag2).
  split; [by eapply trace_flagged_frame|].
  unfold parseV2Frames at 1.
  apply trace_framesLoop; [|unfold len; lia].
  exact (trace_flagged_frame [] frame rest (versionMinor tags) tags flag2
           Hb Hnz Hlen Hflag Hflag2).
Qed.

Lemma flagged_frame_is_skipped_witness :
  parseV2Frames (U:=SpecModel.utils) (T:=SpecModel.tables)
    (Samples.flaggedTitle ++ Samples.paddedBody) (headerTags Samples.version230)
  = logged (EvFrame 0 (declaredSize Samples.flaggedTitle) Samples.flaggedTitle
              (parseFrame (U:=SpecModel.utils) (T:=SpecModel.tables)
                 Samples.flaggedTitle (versionMinor (headerTags Samples.version230))
                 (declaredSize Samples.flaggedTitle)))
      (shiftRun (len Samples.flaggedTitle)
         (parseV2Frames (U:=SpecModel.utils) (T:=SpecModel.tables)
            Samples.paddedBody (headerTags Samples.version230))).
Proof.
  refine (proj2 (proj2 (proj2 (proj2
    (flagged_frame_is_skipped (U:=SpecModel.utils) (T:=SpecModel.tables)
       [] Samples.flaggedTitle Samples.paddedBody None
       (headerTags Samples.version230) 1 _ _ _ _ _))))).
  - by_compute.
  - vm_compute. discriminate.
  - reflexivity.
  - reflexivity.
  - discriminate.
Defined.

(** ** URL frames (C10) *)

(** C10: in a user-defined URL frame ([WXXX]) the encoding byte (frame byte
    10) is skipped only when it is 0.  When it is not, the frame is read
    like any URL frame, as ISO-8859-1 from byte 10 on, and the encoding byte
    is the first character of the URL. *)
Theorem wxxx_encoding_byte_kept `{U : Utils, T : Tables}
    (bytes : bytes) (mi : jsnum) (size encoding : Z) (tag : jsstring) :
  decodesLatin1 U → is_bytes bytes →
  readBytesToUTF8 bytes (Some 4) = str "WXXX" →
  get bytes 9 = Some 0 →
  FrameTypeMap !! str "WXXX" = Some tag →
  get bytes 10 = Some encoding →
  frame_tag (parseFrame bytes mi size) = Some tag
  ∧ (encoding ≠ 0 →
       frame_value (parseFrame bytes mi size)
         = VStr (readBytesToISO8859 (slice bytes 10 None) None)
       ∧ frame_value (parseFrame bytes mi size)
         = VStr (encoding :: slice bytes 11 None))
  ∧ (encoding = 0 →
       frame_value (parseFrame bytes mi size)
         = VStr (readBytesToISO8859 (slice bytes 11 None) None)
       ∧ frame_value (parseFrame bytes mi size) = VStr (slice bytes 11 None)).
Proof.
  intros HU Hb Hid Hflag Htag Henc.
  unfold parseFrame. rewrite Hid, Hflag, Htag, Henc.
  change (negb (isZero (Some 0))) with false. cbv iota. cbn [frame_tag frame_value].
  change (firstCharIs (str "WXXX") "T") with false.
  change (firstCharIs (str "WXXX") "W") with true.
  change (strEq (str "WXXX") (str "WXXX")) with true.
  cbn [andb]. split; [done|].
  assert (Hten : slice bytes 10 None = encoding :: slice bytes 11 None).
  { rewrite !slice_from by lia. unfold get in Henc. simpl in Henc.
    change (Z.to_nat 10) with 10%nat in *. change (Z.to_nat 11) with 11%nat.
    by rewrite (drop_S _ _ _ Henc). }
  split.
  - intros Hnz. assert (isZero (Some encoding) = false) as -> by by destruct encoding.
    split; [done|]. rewrite HU; [by rewrite Hten|].
    rewrite slice_from by lia. by apply is_bytes_drop.
  - intros ->. simpl. split; [done|]. rewrite HU; [done|].
    rewrite slice_from by lia. by apply is_bytes_drop.
Qed.

Lemma wxxx_encoding_byte_kept_witness :
  frame_value (parseFrame (U:=SpecModel.utils) (T:=SpecModel.tables)
                 Samples.urlFrame (Some 3) 5)
  = VStr (1 :: slice Samples.urlFrame 11 None).
Proof.
  refine (proj2 (proj1 (proj2
    (wxxx_encoding_byte_kept (U:=SpecModel.utils) (T:=SpecModel.tables)
       Samples.urlFrame (Some 3) 5 1 (str "user-defined-url-link")
       SpecModel_decodesLatin1 _ _ _ _ _)) _)).
  - by_compute.
  - reflexivity.
  - reflexivity.
  - reflexivity.
  - reflexivity.
  - discriminate.
Defined.

(** ** Ownership frames (C3) *)

(** What [parseFrame] computes for an ownership frame: the offset that
    [getEndpointOfBytes] returns is used as the length of the price and
    added to the start once more. *)
Lemma parseFrame_ownership `{U : Utils, T : Tables}
    (bytes : bytes) (mi : jsnum) (size : Z) (tag : jsstring) :
  readBytesToUTF8 bytes (Some 4) = str "OWNE" →
  get bytes 9 = Some 0 →
  FrameTypeMap !! str "OWNE" = Some tag →
  frame_value (parseFrame bytes mi size)
  = VOwnership
      (readBytesToISO8859 (slice bytes 11 None)
         (Some (getEndpointOfBytes bytes (get bytes 10) 11)))
      (readBytesToISO8859
         (slice bytes (11 + (getEndpointOfBytes bytes (get bytes 10) 11 + 1)) None)
         (Some 8))
      (readBytesToString
         (slice bytes (11 + (getEndpointOfBytes bytes (get bytes 10) 11 + 1) + 8) None)
         (get bytes 10) None).
Proof.
  intros Hid Hflag Htag. unfold parseFrame. rewrite Hid, Hflag, Htag.
  change (negb (isZero (Some 0))) with false. cbv iota. cbn [frame_value].
  change (firstCharIs (str "OWNE") "T") with false.
  change (firstCharIs (str "OWNE") "W") with false.
  change (strEq (str "OWNE") (str "COMM")) with false.
  change (strEq (str "OWNE") (str "USLT")) with false.
  change (strEq (str "OWNE") (str "APIC")) with false.
  change (strEq (str "OWNE") (str "IPLS")) with false.
  change (strEq (str "OWNE") (str "OWNE")) with true.
  done.
Qed.

(** C3 does not hold of the code.  On the frame [ownershipFrame] (price
    [$1.00], date [20200101], seller [Seller]) the decoder returns a price
    of sixteen characters that runs over the null byte, the date and into
    the seller, the three characters [ler] as the date and an empty seller;
    the fields as the spec states them are the price, the date and the
    seller. *)
Theorem ownership_fields_misread :
  frame_value (parseFrame (U:=SpecModel.utils) (T:=SpecModel.tables)
                 Samples.ownershipFrame (Some 3) 21)
  = VOwnership (str "$1.00" ++ [0] ++ str "20200101Se") (str "ler") (Some [])
  ∧ ownershipAsStated (U:=SpecModel.utils) Samples.ownershipFrame
    = VOwnership (str "$1.00") (str "20200101") (Some (str "Seller"))
  ∧ frame_value (parseFrame (U:=SpecModel.utils) (T:=SpecModel.tables)
                   Samples.ownershipFrame (Some 3) 21)
    ≠ ownershipAsStated (U:=SpecModel.utils) Samples.ownershipFrame.
Proof.
  split; [vm_compute; reflexivity|].
  split; [vm_compute; reflexivity|].
  vm_compute. discriminate.
Qed.

(** ** The description scan of attached pictures (C2) *)

(** What [parseFrame] computes for an attached picture; the length of the
    description comes from the scan that starts at [apicScanStart]. *)
Lemma parseFrame_picture `{U : Utils, T : Tables}
    (bytes : bytes) (mi : jsnum) (size : Z) (tag : jsstring) :
  readBytesToUTF8 bytes (Some 4) = str "APIC" →
  get bytes 9 = Some 0 →
  FrameTypeMap !! str "APIC" = Some tag →
  frame_value (parseFrame bytes mi size)
  = VImage
      (imageTypeAt (get bytes (11 + (getEndpointOfBytes bytes (Some 0) 11 - 11) + 1)))
      (readBytesToString (slice bytes 11 None) (Some 0)
         (Some (getEndpointOfBytes bytes (Some 0) 11 - 11)))
      (if apicDescriptionLength bytes =? 0 then None
       else readBytesToString (slice bytes (apicScanStart bytes) None) (get bytes 10)
              (Some (apicDescriptionLength bytes)))
      (slice bytes
         (skipPaddingZeros bytes (apicScanStart bytes + apicDescriptionLength bytes + 1))
         None).
Proof.
  intros Hid Hflag Htag. unfold parseFrame. rewrite Hid, Hflag, Htag.
  change (negb (isZero (Some 0))) with false. cbv iota. cbn [frame_value].
  change (firstCharIs (str "APIC") "T") with false.
  change (firstCharIs (str "APIC") "W") with false.
  change (strEq (str "APIC") (str "COMM")) with false.
  change (strEq (str "APIC") (str "USLT")) with false.
  change (strEq (str "APIC") (str "APIC")) with true.
  reflexivity.
Qed.

(** The fuel of the scan is enough: with more, the scan is the same. *)
Lemma apicScan_enough_fuel (bytes : bytes) (fuel fuel' : nat) (i : Z) :
  APIC_SCAN_LIMIT - i ≤ Z.of_nat fuel → (fuel ≤ fuel')%nat →
  apicScan fuel' bytes i = apicScan fuel bytes i.
Proof.
  revert i fuel'. induction fuel as [|fuel IH]; intros i fuel' Hfuel Hle.
  - destruct fuel' as [|fuel']; [done|]. cbn [apicScan].
    by destruct (Z.ltb_spec i APIC_SCAN_LIMIT); [lia|].
  - destruct fuel' as [|fuel']; [lia|]. cbn [apicScan].
    destruct (Z.ltb_spec i APIC_SCAN_LIMIT); [|done].
    destruct (isZero (get bytes i)); [done|].
    by rewrite (IH (i + 1) fuel') by lia.
Qed.

(** The scan reads only indices from its start up to the bound of the
    loop. *)
Lemma apicScan_inspected_bound (fuel : nat) (bytes : bytes) (i k : Z) :
  k ∈ (apicScan fuel bytes i).2 → i ≤ k < APIC_SCAN_LIMIT.
Proof.
  revert i. induction fuel as [|fuel IH]; intros i; simpl.
  - by intros ?%elem_of_nil.
  - destruct (Z.ltb_spec i APIC_SCAN_LIMIT) as [Hlt|Hge]; [|by intros ?%elem_of_nil].
    destruct (isZero (get bytes i)); simpl.
    + intros ->%list_elem_of_singleton. lia.
    + intros [->|Hin%IH]%elem_of_cons; lia.
Qed.

(** Without a null byte in front of it the scan reads every index up to the
    bound, whether the frame has that many bytes or not. *)
Lemma apicScan_no_null (fuel : nat) (bytes : bytes) (i : Z) :
  (∀ j, i ≤ j → isZero (get bytes j) = false) →
  apicScan fuel bytes i
  = (None, seqZ i (Z.min (Z.of_nat fuel) (APIC_SCAN_LIMIT - i))).
Proof.
  revert i. induction fuel as [|fuel IH]; intros i Hnull.
  - simpl. by rewrite seqZ_nil by lia.
  - cbn [apicScan]. destruct (Z.ltb_spec i APIC_SCAN_LIMIT) as [Hlt|Hge].
    + rewrite (Hnull i) by lia. rewrite IH by (intros j Hj; apply Hnull; lia).
      cbn [fst snd]. f_equal.
      rewrite (seqZ_cons i) by lia. f_equal. f_equal. lia.
    + by rewrite seqZ_nil by lia.
Qed.

Lemma no_null_from (bytes : bytes) (i : Z) :
  0 ≤ i → Forall (λ b, b ≠ 0) (drop (Z.to_nat i) bytes) →
  ∀ j, i ≤ j → isZero (get bytes j) = false.
Proof.
  intros Hi Hall j Hj. unfold get. destruct (Z.ltb_spec j 0); [lia|].
  match goal with |- context [isZero ?o] => destruct o as [b|] eqn:Hb end;
    [|reflexivity].
  assert (Hin : b ∈ drop (Z.to_nat i) bytes).
  { apply list_elem_of_lookup. exists (Z.to_nat j - Z.to_nat i)%nat.
    rewrite lookup_drop. rewrite <- Hb. f_equal. lia. }
  rewrite Forall_forall in Hall. specialize (Hall b Hin). by destruct b.
Qed.

(** C2 does not hold of the code: the loop is bounded by 36700160, which is
    35 MiB, not by 30 * 1024 * 1024 as its comment and the spec say.  On the
    picture frame [pictureNoTerminator], whose description has no null
    byte, the scan starts at byte 22 and reads every index up to 36700159,
    the index 30 MiB among them. *)
Theorem picture_scan_reads_past_30MiB :
  apicScanStart (U:=SpecModel.utils) Samples.pictureNoTerminator = 22
  ∧ apicInspected (U:=SpecModel.utils) Samples.pictureNoTerminator
    = seqZ 22 (APIC_SCAN_LIMIT - 22)
  ∧ THIRTY_MIB ∈ apicInspected (U:=SpecModel.utils) Samples.pictureNoTerminator
  ∧ APIC_SCAN_LIMIT - 1 ∈ apicInspected (U:=SpecModel.utils) Samples.pictureNoTerminator
  ∧ THIRTY_MIB < APIC_SCAN_LIMIT - 1.
Proof.
  assert (Hstart : apicScanStart (U:=SpecModel.utils) Samples.pictureNoTerminator = 22)
    by (vm_compute; reflexivity).
  assert (Hscan : apicInspected (U:=SpecModel.utils) Samples.pictureNoTerminator
                  = seqZ 22 (APIC_SCAN_LIMIT - 22)).
  { unfold apicInspected. rewrite Hstart.
    rewrite apicScan_no_null.
    - cbn [snd]. unfold apicScanFuel.
      rewrite Z2Nat.id by (unfold APIC_SCAN_LIMIT; lia). by rewrite Z.min_id.
    - apply no_null_from; [lia|]. by_compute. }
  split; [done|]. split; [done|]. rewrite Hscan.
  unfold THIRTY_MIB, APIC_SCAN_LIMIT.
  split; [|split]; [apply elem_of_seqZ; lia..|lia].
Qed.

(** ** The content-type frame (C4) *)

Section ContentType.
Context {T : Tables}.

Lemma digit_not_paren (c : Z) : isDigit c = true → (c =? 40) = false.
Proof. unfold isDigit. lia. Qed.

Lemma digit_not_space (c : Z) : isDigit c = true → isStrWhiteSpace c = false.
Proof.
  unfold isDigit, isStrWhiteSpace. intros Hd.
  apply orb_false_intro; [|lia].
  apply bool_decide_eq_false_2. intros Hin.
  repeat (apply elem_of_cons in Hin as [->|Hin]; [lia|]).
  by apply elem_of_nil in Hin.
Qed.

(** Inside a group the scan collects the digits. *)
Lemma matchGroupsFrom_digits (ds acc rest : jsstring) :
  Forall (λ c, isDigit c = true) ds →
  matchGroupsFrom (Some acc) (ds ++ rest) = matchGroupsFrom (Some (rev ds ++ acc)) rest.
Proof.
  intros Hds. revert acc. induction Hds as [|c ds Hc Hds IH]; intros acc; [done|].
  cbn [app matchGroupsFrom]. rewrite (digit_not_paren c Hc), Hc.
  rewrite IH. cbn [rev]. by rewrite <- app_assoc.
Qed.

(** A group is matched whole, wherever the scan stands. *)
Lemma matchGroupsFrom_group (open : option jsstring) (ds rest : jsstring) :
  isDigits ds →
  matchGroupsFrom open (paren ds ++ rest) = paren ds :: matchGroupsFrom None rest.
Proof.
  intros [Hne Hds]. unfold paren. rewrite <- !app_assoc.
  cbn [app matchGroupsFrom]. change (40 =? 40) with true. cbv iota.
  rewrite matchGroupsFrom_digits by done.
  cbn [app matchGroupsFrom]. change (41 =? 40) with false. cbv iota.
  change (isDigit 41) with false. cbv iota. change (41 =? 41) with true.
  rewrite app_nil_r.
  rewrite bool_decide_eq_false_2 by (intros Hrev; apply Hne;
    by rewrite <- (rev_involutive ds), Hrev).
  cbn [negb andb]. by rewrite rev_involutive.
Qed.

Lemma matchGroups_wrapped (s : jsstring) (groups : list jsstring) :
  wrappedGroups s groups →
  matchGroups s = paren <$> groups ∧ firstCharIs s "(" = true.
Proof.
  intros (Hne & Hall & ->). split.
  - unfold matchGroups. clear Hne.
    induction Hall as [|ds groups Hds Hall IH]; [done|].
    cbn [fmap list_fmap concat]. rewrite matchGroupsFrom_group by done.
    by rewrite IH.
  - destruct groups as [|ds groups]; [done|]. done.
Qed.

Lemma slice_paren (ds : jsstring) : slice (paren ds) 1 (Some (-1)) = ds.
Proof.
  unfold slice, relIndex, paren, len. rewrite !length_app. cbn [length app].
  change (1 <? 0) with false. change (-1 <? 0) with true. cbv iota.
  rewrite Z.min_l, Z.max_l by lia.
  change (Z.to_nat 1) with 1%nat. cbn [drop].
  replace (Z.to_nat _) with (length ds) by lia.
  by rewrite drop_0, take_app_length.
Qed.

Lemma takeWhile_all {A} (p : A → bool) (l : list A) :
  Forall (λ x, p x = true) l → takeWhile p l = l.
Proof. induction 1 as [|x l Hx _ IH]; simpl; [done|]. by rewrite Hx, IH. Qed.

(** [parseInt] of a bare integer is the integer. *)
Lemma parseInt10_digits (s : jsstring) :
  bareInteger s → parseInt10 s = Some (digitsValue s) ∧ firstCharIs s "(" = false.
Proof.
  intros [Hne Hds]. destruct s as [|c s]; [done|].
  pose proof (Forall_inv Hds) as Hc. unfold parseInt10.
  cbn [dropWhile]. rewrite (digit_not_space c Hc).
  assert (Hfirst : ∀ a, isDigit (chr a) = false → firstCharIs (c :: s) a = false).
  { intros a Ha. unfold firstCharIs. apply bool_decide_eq_false_2.
    intros [= ->]. congruence. }
  rewrite !Hfirst by done. cbn [orb]. cbv iota.
  rewrite takeWhile_all by done. split; [|done].
  f_equal. lia.
Qed.

(** The value of a content-type frame whose text is wrapped in groups, and
    of one whose text is a bare integer. *)
Lemma handleTCON_wrapped (s : jsstring) (groups : list jsstring) :
  wrappedGroups s groups → handleTCON s = joinedGenres groups.
Proof.
  intros Hw. destruct (matchGroups_wrapped s groups Hw) as [Hm Hfirst].
  unfold handleTCON, joinedGenres. rewrite Hfirst, Hm.
  destruct Hw as (Hne & Hall & _).
  destruct groups as [|ds groups]; [done|].
  cbn [fmap list_fmap]. f_equal. f_equal.
  rewrite <- list_fmap_compose. cbn [fmap]. f_equal.
  - by rewrite slice_paren.
  - apply list_fmap_ext. intros _ g _. simpl. by rewrite slice_paren.
Qed.

Lemma handleTCON_integer (s : jsstring) :
  bareInteger s → handleTCON s = genreValue (digitsValue s).
Proof.
  intros Hs. destruct (parseInt10_digits s Hs) as [Hp Hfirst].
  unfold handleTCON. by rewrite Hfirst, Hp.
Qed.

End ContentType.

(** What [parseFrame] computes for a content-type frame. *)
Lemma parseFrame_contentType `{U : Utils, T : Tables}
    (bytes : bytes) (mi : jsnum) (size : Z) (tag : jsstring) :
  readBytesToUTF8 bytes (Some 4) = str "TCON" →
  get bytes 9 = Some 0 →
  FrameTypeMap !! str "TCON" = Some tag →
  frame_value (parseFrame bytes mi size)
  = match readBytesToString (slice bytes 11 None) (get bytes 10) None with
    | Some value => handleTCON value
    | None => VNull
    end.
Proof.
  intros Hid Hflag Htag. unfold parseFrame. rewrite Hid, Hflag, Htag.
  change (negb (isZero (Some 0))) with false. cbv iota. cbn [frame_value].
  change (firstCharIs (str "TCON") "T") with true.
  change (strEq (str "TCON") (str "TXXX")) with false.
  change (strEq (str "TCON") (str "TCON")) with true.
  reflexivity.
Qed.

(** C4, as stated, fails: the text [17abc] is neither wrapped in groups nor
    a bare integer, yet the frame does not keep it; [parseInt] reads the
    leading 17 and the value is the genre of that index. *)
Lemma tcon_integer_prefix_not_literal :
  readBytesToString (Utils:=SpecModel.utils)
    (slice Samples.genreFrame 11 None) (get Samples.genreFrame 10) None
  = Some (str "17abc")
  ∧ frame_value (parseFrame (U:=SpecModel.utils) (T:=SpecModel.tables)
                   Samples.genreFrame (Some 3) 6) = VStr (str "Rock")
  ∧ ¬ tconAsStated (T:=SpecModel.tables) (str "17abc")
        (frame_value (parseFrame (U:=SpecModel.utils) (T:=SpecModel.tables)
                        Samples.genreFrame (Some 3) 6)).
Proof.
  assert (Hv : frame_value (parseFrame (U:=SpecModel.utils) (T:=SpecModel.tables)
                              Samples.genreFrame (Some 3) 6) = VStr (str "Rock"))
    by (vm_compute; reflexivity).
  split; [vm_compute; reflexivity|]. split; [done|].
  rewrite Hv. intros (_ & _ & Hliteral).
  assert (Hneq : VStr (str "Rock") ≠ VStr (str "17abc")) by (vm_compute; discriminate).
  apply Hneq, Hliteral.
  - intros (groups & Hne & _ & Heq). destruct groups as [|ds groups]; [done|].
    vm_compute in Heq. discriminate.
  - intros [_ Hds]. vm_compute in Hds.
    do 2 apply Forall_cons in Hds as [_ Hds]. apply Forall_cons in Hds as [Hd _].
    discriminate.
Qed.

(** C4, amended: the value of a content-type frame whose text [s] is not
    null.  Text wrapped in [(digits)] groups gives the comma-joined genres
    of the groups, and a bare integer gives the genre of that index, as the
    spec says.  Beyond that, text that starts with a parenthesis gives the
    joined genres of every [(digits)] group found anywhere in it, and is
    kept only if there is none; other text gives the genre of the integer
    [parseInt] reads at its start, and is kept only if there is none.  So
    [(17)] and [17] give the genre of index 17, and [Rock] is kept. *)
Theorem tcon_value `{U : Utils, T : Tables}
    (bytes : bytes) (mi : jsnum) (size : Z) (tag s : jsstring) :
  readBytesToUTF8 bytes (Some 4) = str "TCON" →
  get bytes 9 = Some 0 →
  FrameTypeMap !! str "TCON" = Some tag →
  readBytesToString (slice bytes 11 None) (get bytes 10) None = Some s →
  frame_value (parseFrame bytes mi size) = handleTCON s
  ∧ (∀ groups, wrappedGroups s groups → handleTCON s = joinedGenres groups)
  ∧ (bareInteger s → handleTCON s = genreValue (digitsValue s))
  ∧ (firstCharIs s "(" = true →
       handleTCON s
       = match matchGroups s with
         | [] => VStr s
         | found =>
             VStr (joinComma
                     ((λ g, genreAt (digitsValue (slice g 1 (Some (-1))))) <$> found))
         end)
  ∧ (firstCharIs s "(" = false →
       handleTCON s
       = match parseInt10 s with
         | Some n => genreValue n
         | None => VStr s
         end)
  ∧ (∀ g, genreAt 17 = Some g →
       handleTCON (str "(17)") = VStr g ∧ handleTCON (str "17") = VStr g)
  ∧ handleTCON (str "Rock") = VStr (str "Rock").
Proof.
  intros Hid Hflag Htag Hs.
  split; [by rewrite (parseFrame_contentType bytes mi size tag), Hs|].
  split; [apply handleTCON_wrapped|]. split; [apply handleTCON_integer|].
  split; [by intros Hfirst; unfold handleTCON; rewrite Hfirst|].
  split; [by intros Hfirst; unfold handleTCON; rewrite Hfirst|].
  split; [|reflexivity].
  intros g Hg. split.
  - rewrite (handleTCON_wrapped (str "(17)") [str "17"]).
    + unfold joinedGenres. cbn [fmap list_fmap].
      change (digitsValue (str "17")) with 17. by rewrite Hg.
    + split; [done|]. split; [|done].
      apply Forall_singleton. split; [done|]. by repeat constructor.
  - rewrite (handleTCON_integer (str "17")).
    + unfold genreValue. change (digitsValue (str "17")) with 17. by rewrite Hg.
    + split; [done|]. by repeat constructor.
Qed.

Lemma tcon_value_witness :
  frame_value (parseFrame (U:=SpecModel.utils) (T:=SpecModel.tables)
                 Samples.genreFrame (Some 3) 6)
  = handleTCON (T:=SpecModel.tables) (str "17abc").
Proof.
  refine (proj1 (tcon_value (U:=SpecModel.utils) (T:=SpecModel.tables)
                   Samples.genreFrame (Some 3) 6 (str "genre") (str "17abc") _ _ _ _)).
  - reflexivity.
  - reflexivity.
  - reflexivity.
  - reflexivity.
Defined.

(** * Further properties of the parser *)

(** ** The size decoders *)

Lemma band_7f (x : jsnum) : 0 ≤ band x 0x7f < 0x80.
Proof.
  destruct x as [b|]; simpl; [|lia].
  change 127 with (Z.ones 7). rewrite Z.land_ones by lia.
  apply Z.mod_pos_bound. lia.
Qed.

Lemma band_7f_small (b : Z) : 0 ≤ b < 0x80 → band (Some b) 0x7f = b.
Proof.
  intros Hb. simpl. change 127 with (Z.ones 7). rewrite Z.land_ones by lia.
  apply Z.mod_small. lia.
Qed.

Lemma calcTagSize_range (bs : bytes) : 0 ≤ calcTagSize bs < 0x10000000.
Proof.
  unfold calcTagSize.
  pose proof (band_7f (get bs 0)). pose proof (band_7f (get bs 1)).
  pose proof (band_7f (get bs 2)). pose proof (band_7f (get bs 3)). lia.
Qed.

Lemma calcTagSize_four (b0 b1 b2 b3 : Z) :
  calcTagSize [b0; b1; b2; b3]
  = b0 mod 0x80 * 0x200000 + b1 mod 0x80 * 0x4000 + b2 mod 0x80 * 0x80 + b3 mod 0x80.
Proof.
  change (calcTagSize [b0; b1; b2; b3])
    with (Z.land b0 (Z.ones 7) * 0x200000 + Z.land b1 (Z.ones 7) * 0x4000 +
          Z.land b2 (Z.ones 7) * 0x80 + Z.land b3 (Z.ones 7)).
  by rewrite !Z.land_ones by lia.
Qed.

Lemma calcFrameSize_four (b0 b1 b2 b3 : Z) (r : bytes) :
  calcFrameSize (b0 :: b1 :: b2 :: b3 :: r)
  = b0 * 0x1000000 + b1 * 0x10000 + b2 * 0x100 + b3.
Proof.
  unfold calcFrameSize.
  destruct (Z.ltb_spec (len (b0 :: b1 :: b2 :: b3 :: r)) 4) as [Hs|_]; [|done].
  unfold len in Hs. simpl in Hs. lia.
Qed.

(** X1: [calcTagSize] is the inverse of the synchsafe encoding.  Whatever
    it is given (short input, set top bits), its result is a size below
    2^28; it ignores the top bit of every byte; it decodes the encoding of
    every size below 2^28 to that size; and four bytes below 0x80 are the
    encoding of the size it gives for them. *)
Theorem calcTagSize_synchsafe (n : Z) (bs any : bytes) (b0 b1 b2 b3 : Z) :
  0 ≤ n < 0x10000000 → isSynchsafe bs →
  0 ≤ calcTagSize any < 0x10000000
  ∧ calcTagSize [b0; b1; b2; b3]
    = calcTagSize [b0 mod 0x80; b1 mod 0x80; b2 mod 0x80; b3 mod 0x80]
  ∧ isSynchsafe (synchsafeEncode n)
  ∧ calcTagSize (synchsafeEncode n) = n
  ∧ synchsafeEncode (calcTagSize bs) = bs.
Proof.
  intros Hn [Hlen Hbs].
  split; [apply calcTagSize_range|]. split.
  { rewrite !calcTagSize_four. by rewrite !Z.mod_mod by lia. }
  split.
  { split; [done|]. unfold synchsafeEncode.
    repeat (apply Forall_cons; split; [apply Z.mod_pos_bound; lia|]). constructor. }
  split.
  { unfold synchsafeEncode. rewrite calcTagSize_four. rewrite !Z.mod_mod by lia.
    Z.div_mod_to_equations. lia. }
  destruct bs as [|c0 [|c1 [|c2 [|c3 [|? ?]]]]]; try discriminate.
  repeat (apply Forall_cons in Hbs as [? Hbs]).
  rewrite calcTagSize_four. rewrite !Z.mod_small by done.
  unfold synchsafeEncode. repeat f_equal; Z.div_mod_to_equations; lia.
Qed.

Lemma calcTagSize_synchsafe_witness :
  calcTagSize (synchsafeEncode 257) = 257.
Proof.
  refine (proj1 (proj2 (proj2 (proj2
    (calcTagSize_synchsafe 257 [0; 0; 2; 1] [] 0 0 0 0 _ _))))).
  - lia.
  - split; [reflexivity|]. by_compute.
Defined.

Lemma calcFrameSize_range_bytes (bs : bytes) :
  is_bytes bs → 0 ≤ calcFrameSize bs < 0x100000000.
Proof.
  intros Hb.
  destruct (Z.lt_ge_cases (len bs) 4) as [Hs|Hs];
    [rewrite calcFrameSize_short by done; lia|].
  destruct bs as [|b0 [|b1 [|b2 [|b3 r]]]]; try (unfold len in Hs; simpl in Hs; lia).
  rewrite calcFrameSize_four.
  repeat (apply Forall_cons in Hb as [? Hb]). unfold is_byte in *. lia.
Qed.

Lemma calcFrameSize_zero_iff (bs : bytes) :
  is_bytes bs →
  calcFrameSize bs = 0 ↔ len bs < 4 ∨ take 4 bs = [0; 0; 0; 0].
Proof.
  intros Hb.
  destruct bs as [|b0 [|b1 [|b2 [|b3 r]]]];
    try (split; [intros _; left; unfold len; simpl; lia|reflexivity]).
  rewrite calcFrameSize_four.
  repeat (apply Forall_cons in Hb as [? Hb]). unfold is_byte in *.
  cbn [take]. split.
  - intros Hz. right. repeat f_equal; lia.
  - intros [Hs|Heq]; [unfold len in Hs; simpl in Hs; lia|].
    simplify_eq. lia.
Qed.

(** X2: [calcFrameSize] on bytes.  The result is a size below 2^32; it is 0
    exactly when fewer than four bytes are given or the first four are all
    zero; only the first four bytes count; and the big-endian encoding of
    every size below 2^32 decodes to that size. *)
Theorem calcFrameSize_big_endian (n : Z) (bs rest : bytes) :
  0 ≤ n < 0x100000000 → is_bytes bs →
  0 ≤ calcFrameSize bs < 0x100000000
  ∧ (calcFrameSize bs = 0 ↔ len bs < 4 ∨ take 4 bs = [0; 0; 0; 0])
  ∧ (4 ≤ len bs → calcFrameSize (bs ++ rest) = calcFrameSize bs)
  ∧ is_bytes (bigEndianEncode n)
  ∧ calcFrameSize (bigEndianEncode n ++ rest) = n.
Proof.
  intros Hn Hb.
  split; [by apply calcFrameSize_range_bytes|].
  split; [by apply calcFrameSize_zero_iff|].
  split; [apply calcFrameSize_app|]. split.
  - unfold bigEndianEncode.
    repeat (apply Forall_cons; split; [apply Z.mod_pos_bound; lia|]). constructor.
  - unfold bigEndianEncode. cbn [app]. rewrite calcFrameSize_four.
    Z.div_mod_to_equations. lia.
Qed.

Lemma calcFrameSize_big_endian_witness :
  calcFrameSize (bigEndianEncode 70000 ++ [7; 7]) = 70000.
Proof.
  refine (proj2 (proj2 (proj2 (proj2
    (calcFrameSize_big_endian 70000 [0; 0; 0; 5] [7; 7] _ _))))).
  - lia.
  - by_compute.
Defined.

(** ** The frame loop, frame by frame *)

Section LoopFrames.
Context {U : Utils} {T : Tables}.

(** [parseFrame] reads neither the minor version nor the size it is given:
    the branch for version 2.4 is empty and the size is only copied into a
    local header object. *)
Lemma parseFrame_header_args (bs : bytes) (mi mi' : jsnum) (size size' : Z) :
  parseFrame bs mi size = parseFrame bs mi' size'.
Proof. reflexivity. Qed.

Lemma framesLoop_minor (fuel : nat) (bs : bytes) (mi mi' : jsnum) (position : Z)
    (tags : Tags) :
  framesLoop fuel bs mi position tags = framesLoop fuel bs mi' position tags.
Proof.
  revert position tags. induction fuel as [|fuel IH]; intros position tags; [done|].
  cbn [framesLoop]. destruct (negb _); [done|].
  destruct (_ =? 0); [done|]. destruct (_ =? 0); [done|].
  match goal with |- context [parseFrame ?sl mi ?sz] =>
    rewrite (parseFrame_header_args sl mi mi' sz sz) end.
  destruct (storeFrame _ _); [done|]. by rewrite IH.
Qed.

(** The loop at a whole frame, wherever the frame stands in the body: the
    frame is decoded and stored, and the loop goes on over the rest as it
    would over the rest alone. *)
Lemma trace_whole_frame (pre frame rest : bytes) (mi : jsnum) (tags : Tags) :
  is_bytes (frame ++ rest) →
  declaredSize frame ≠ 0 →
  len frame = 10 + declaredSize frame →
  LoopTrace (pre ++ frame ++ rest) mi (len pre) tags
    match storeFrame tags (parseFrame frame mi (declaredSize frame)) with
    | inl e =>
        mkRun (Thrown e) tags
          [EvFrame (len pre) (declaredSize frame) frame
             (parseFrame frame mi (declaredSize frame))]
    | inr tags' =>
        logged (EvFrame (len pre) (declaredSize frame) frame
                  (parseFrame frame mi (declaredSize frame)))
          (shiftRun (len pre + len frame) (framesLoop (length rest) rest mi 0 tags'))
    end.
Proof.
  intros Hb Hnz Hlen.
  apply Forall_app in Hb as [Hbf Hbr].
  destruct (whole_frame_at_cursor pre frame rest Hbf Hnz Hlen) as [Hsize Hslice].
  destruct (declaredSize_facts frame Hbf Hnz) as [Hpos _].
  pose proof (len_nonneg pre). pose proof (len_nonneg rest).
  destruct (storeFrame tags _) as [e|tags'] eqn:Hst.
  - eapply trace_throw; rewrite ?Hsize, ?Hslice; try done; try lia.
    rewrite !len_app. lia.
  - eapply trace_frame; rewrite ?Hsize, ?Hslice; try done; try lia.
    + rewrite !len_app. lia.
    + pose proof (trace_shift (pre ++ frame) rest mi 0 tags' _
        (framesLoop_trace rest mi (length rest) 0 tags' ltac:(unfold len; lia))
        Hbr (Z.le_refl 0)) as Hsh.
      by rewrite <- app_assoc, len_app, Z.add_0_r in Hsh.
Qed.

(** The slices handed to the decoder lie one after the other from the
    cursor on. *)
Lemma trace_slices_prefix (bs : bytes) (mi : jsnum) (position : Z) (tags : Tags)
    (r : Run) :
  LoopTrace bs mi position tags r →
  is_bytes bs → 0 ≤ position →
  ∃ k, drop (Z.to_nat position) bs = concat ((handedSlices r).*2) ++ k.
Proof.
  intros Htr Hb.
  induction Htr as [q tags Hq|q tags Hq Hz|q tags sz Hq -> Hnz He
                   |q tags sz s0 f0 e Hq -> Hnz -> Hne -> Hst
                   |q tags sz s0 f0 tags' r Hq -> Hnz -> Hne -> Hst Htr IH];
    intros Hq0; try (by eexists).
  - destruct (frame_size_facts bs q Hb Hq0 Hnz) as [Hpos Hlen].
    unfold handedSlices. cbn [run_log omap list_omap fmap list_fmap concat snd].
    rewrite slice_range by lia. rewrite app_nil_r.
    eexists. symmetry. apply take_drop.
  - destruct (frame_size_facts bs q Hb Hq0 Hnz) as [Hpos Hlen].
    pose proof (frame_slice_len bs q _ Hq0 Hpos Hq) as Hsl.
    destruct IH as [k Hk]; [lia|].
    exists k. unfold handedSlices.
    cbn [logged run_log omap list_omap fmap list_fmap concat snd].
    fold (handedSlices r). rewrite <- app_assoc, <- Hk.
    set (size := calcFrameSize (slice bs (q + 4) None)) in *.
    rewrite (slice_range bs q (q + 10 + size)) in * by lia.
    replace (q + 10 + size - q) with (10 + size) in * by lia.
    set (n := Z.to_nat (10 + size)) in *.
    replace (Z.to_nat (q + len (take n (drop (Z.to_nat q) bs))))
      with (Z.to_nat q + length (take n (drop (Z.to_nat q) bs)))%nat
      by (unfold len; lia).
    rewrite <- drop_drop.
    rewrite <- (take_drop n (drop (Z.to_nat q) bs)) at 1. f_equal.
    rewrite length_take.
    destruct (Nat.le_gt_cases n (length (drop (Z.to_nat q) bs))) as [Hle|Hgt].
    + by rewrite Nat.min_l by done.
    + rewrite Nat.min_r by lia. by rewrite drop_all, drop_ge by lia.
Qed.

End LoopFrames.




(** X4: frame iteration composes.  When the body starts with a whole frame,
    the loop decodes and stores that frame and then runs over the rest of
    the body exactly as it runs over the rest alone, from the record the
    frame left; if storing throws, the run ends there. *)
Theorem whole_frame_then_rest `{U : Utils, T : Tables}
    (frame rest : bytes) (tags : Tags) :
  is_bytes (frame ++ rest) →
  declaredSize frame ≠ 0 →
  len frame = 10 + declaredSize frame →
  parseV2Frames (frame ++ rest) tags
  = match storeFrame tags (parseFrame frame (versionMinor tags) (declaredSize frame)) with
    | inl e =>
        mkRun (Thrown e) tags
          [EvFrame 0 (declaredSize frame) frame
             (parseFrame frame (versionMinor tags) (declaredSize frame))]
    | inr tags' =>
        logged (EvFrame 0 (declaredSize frame) frame
                  (parseFrame frame (versionMinor tags) (declaredSize frame)))
          (shiftRun (len frame) (parseV2Frames rest tags'))
    end.
Proof.
  intros Hb Hnz Hlen. unfold parseV2Frames at 1.
  apply trace_framesLoop; [|unfold len; lia].
  pose proof (trace_whole_frame [] frame rest (versionMinor tags) tags Hb Hnz Hlen) as Htr.
  destruct (storeFrame tags _) as [e|tags']; [exact Htr|].
  unfold parseV2Frames. by rewrite (framesLoop_minor _ _ (versionMinor tags') (versionMinor tags)).
Qed.

Lemma whole_frame_then_rest_witness :
  parseV2Frames (U:=SpecModel.utils) (T:=SpecModel.tables)
    (Samples.wholeTitle ++ Samples.commentsBody) (headerTags Samples.version230)
  = match storeFrame (T:=SpecModel.tables) (headerTags Samples.version230)
            (parseFrame (U:=SpecModel.utils) (T:=SpecModel.tables) Samples.wholeTitle
               (versionMinor (headerTags Samples.version230))
               (declaredSize Samples.wholeTitle)) with
    | inl e =>
        mkRun (Thrown e) (headerTags Samples.version230)
          [EvFrame 0 (declaredSize Samples.wholeTitle) Samples.wholeTitle
             (parseFrame (U:=SpecModel.utils) (T:=SpecModel.tables) Samples.wholeTitle
                (versionMinor (headerTags Samples.version230))
                (declaredSize Samples.wholeTitle))]
    | inr tags' =>
        logged (EvFrame 0 (declaredSize Samples.wholeTitle) Samples.wholeTitle
                  (parseFrame (U:=SpecModel.utils) (T:=SpecModel.tables) Samples.wholeTitle
                     (versionMinor (headerTags Samples.version230))
                     (declaredSize Samples.wholeTitle)))
          (shiftRun (len Samples.wholeTitle)
             (parseV2Frames (U:=SpecModel.utils) (T:=SpecModel.tables)
                Samples.commentsBody tags'))
    end.
Proof.
  refine (whole_frame_then_rest (U:=SpecModel.utils) (T:=SpecModel.tables)
            Samples.wholeTitle Samples.commentsBody (headerTags Samples.version230)
            _ _ _).
  - by_compute.
  - vm_compute. discriminate.
  - reflexivity.
Defined.

(** X5: a whole frame whose identifier is not in the frame-type table gives
    no tag and no value, whatever its flags and payload, and iteration goes
    on behind it over the rest of the body as over the rest alone. *)
Theorem unknown_frame_is_skipped `{U : Utils, T : Tables}
    (frame rest : bytes) (tags : Tags) :
  is_bytes (frame ++ rest) →
  declaredSize frame ≠ 0 →
  len frame = 10 + declaredSize frame →
  FrameTypeMap !! readBytesToUTF8 frame (Some 4) = None →
  parseFrame frame (versionMinor tags) (declaredSize frame)
    = mkFrame (readBytesToUTF8 frame (Some 4)) None VNull
  ∧ parseV2Frames (frame ++ rest) tags
    = logged (EvFrame 0 (declaredSize frame) frame
                (mkFrame (readBytesToUTF8 frame (Some 4)) None VNull))
        (shiftRun (len frame) (parseV2Frames rest tags)).
Proof.
  intros Hb Hnz Hlen Hid.
  assert (Hparse : parseFrame frame (versionMinor tags) (declaredSize frame)
                   = mkFrame (readBytesToUTF8 frame (Some 4)) None VNull).
  { unfold parseFrame. rewrite Hid. by destruct (negb _). }
  split; [done|].
  unfold parseV2Frames at 1.
  apply trace_framesLoop; [|unfold len; lia].
  pose proof (trace_whole_frame [] frame rest (versionMinor tags) tags Hb Hnz Hlen) as Htr.
  by rewrite Hparse in Htr.
Qed.

Lemma unknown_frame_is_skipped_witness :
  parseV2Frames (U:=SpecModel.utils) (T:=SpecModel.tables)
    (Samples.unknownFrame ++ Samples.commentsBody) (headerTags Samples.version230)
  = logged (EvFrame 0 (declaredSize Samples.unknownFrame) Samples.unknownFrame
              (mkFrame (readBytesToUTF8 (Utils:=SpecModel.utils)
                          Samples.unknownFrame (Some 4)) None VNull))
      (shiftRun (len Samples.unknownFrame)
         (parseV2Frames (U:=SpecModel.utils) (T:=SpecModel.tables)
            Samples.commentsBody (headerTags Samples.version230))).
Proof.
  refine (proj2 (unknown_frame_is_skipped (U:=SpecModel.utils) (T:=SpecModel.tables)
            Samples.unknownFrame Samples.commentsBody (headerTags Samples.version230)
            _ _ _ _)).
  - by_compute.
  - vm_compute. discriminate.
  - reflexivity.
  - reflexivity.
Defined.

(** X6: over a body of bytes, the slices handed to the decoder lie one
    after the other from the start of the body: put together they are a
    prefix of it, so no byte is decoded twice and none beyond the body. *)
Theorem handed_slices_tile_body `{U : Utils, T : Tables} (bytes : bytes) (tags : Tags) :
  is_bytes bytes →
  concat ((handedSlices (parseV2Frames bytes tags)).*2) `prefix_of` bytes.
Proof.
  intros Hb.
  destruct (trace_slices_prefix _ _ _ _ _ (parseV2Frames_trace bytes tags) Hb (Z.le_refl 0))
    as [k Hk].
  exists k. by rewrite <- Hk.
Qed.

Lemma handed_slices_tile_body_witness :
  concat ((handedSlices (parseV2Frames (U:=SpecModel.utils) (T:=SpecModel.tables)
                           Samples.paddedBody (headerTags Samples.version230))).*2)
    `prefix_of` Samples.paddedBody.
Proof.
  refine (handed_slices_tile_body (U:=SpecModel.utils) (T:=SpecModel.tables)
            Samples.paddedBody (headerTags Samples.version230) _).
  by_compute.
Defined.

Lemma trace_first_pass `{U : Utils, T : Tables}
    (bs : bytes) (mi : jsnum) (position : Z) (tags : Tags) (r : Run) :
  LoopTrace bs mi position tags r →
  is_bytes bs → 0 ≤ position →
  (handedSlices r = [] ↔
     len bs - position < 8 ∨ take 4 (drop (Z.to_nat (position + 4)) bs) = [0; 0; 0; 0])
  ∧ (handedSlices r = [] → run_end r = Finished ∧ run_tags r = tags).
Proof.
  intros Htr Hb Hp.
  assert (Hzero : calcFrameSize (slice bs (position + 4) None) = 0 ↔
    len bs - position < 8 ∨ take 4 (drop (Z.to_nat (position + 4)) bs) = [0; 0; 0; 0]).
  { rewrite slice_from by lia.
    rewrite (calcFrameSize_zero_iff _ (is_bytes_drop _ (Z.to_nat (position + 4)) Hb)).
    unfold len. rewrite length_drop. split; (intros [?|?]; [left; lia|by right]). }
  destruct Htr as [q tags Hq|q tags Hq Hz|q tags sz Hq -> Hnz He
                  |q tags sz s0 f0 e Hq -> Hnz -> Hne -> Hst
                  |q tags sz s0 f0 tags' r Hq -> Hnz -> Hne -> Hst Htr].
  - split; [|done]. split; [intros _; left; lia|done].
  - split; [|done]. split; [intros _; by apply Hzero|done].
  - destruct (frame_size_facts bs q Hb Hp Hnz) as [Hpos _].
    pose proof (frame_slice_len bs q _ Hp Hpos Hq). lia.
  - split; [|done]. split; [done|]. intros Hrhs. by apply Hzero in Hrhs.
  - split; [|done]. split; [done|]. intros Hrhs. by apply Hzero in Hrhs.
Qed.

(** X7: over a body of bytes the loop decodes no frame at all exactly when
    the body has fewer than 8 bytes or its bytes 4 to 7, where the size of
    the first frame stands, are all zero, whatever the identifier in front
    of them; the tag record is then returned as it was. *)
Theorem no_frame_iff_short_or_padding `{U : Utils, T : Tables}
    (bytes : bytes) (tags : Tags) :
  is_bytes bytes →
  (handedSlices (parseV2Frames bytes tags) = [] ↔
     len bytes < 8 ∨ take 4 (drop 4 bytes) = [0; 0; 0; 0])
  ∧ (handedSlices (parseV2Frames bytes tags) = [] →
     run_end (parseV2Frames bytes tags) = Finished
     ∧ run_tags (parseV2Frames bytes tags) = tags).
Proof.
  intros Hb.
  destruct (trace_first_pass _ _ _ _ _ (parseV2Frames_trace bytes tags) Hb (Z.le_refl 0))
    as [Hiff Hend].
  split; [|done]. rewrite Hiff. by rewrite Z.sub_0_r.
Qed.

Lemma no_frame_iff_short_or_padding_witness :
  handedSlices (parseV2Frames (U:=SpecModel.utils) (T:=SpecModel.tables)
                  (ascii "TIT2" ++ [0; 0; 0; 0; 0; 0; 65])
                  (headerTags Samples.version230)) = [] ↔
  len (ascii "TIT2" ++ [0; 0; 0; 0; 0; 0; 65]) < 8
  ∨ take 4 (drop 4 (ascii "TIT2" ++ [0; 0; 0; 0; 0; 0; 65])) = [0; 0; 0; 0].
Proof.
  refine (proj1 (no_frame_iff_short_or_padding (U:=SpecModel.utils) (T:=SpecModel.tables)
            (ascii "TIT2" ++ [0; 0; 0; 0; 0; 0; 65]) (headerTags Samples.version230) _)).
  by_compute.
Defined.

(** The two early returns of [parseFrame]. *)
Lemma parseFrame_cases `{U : Utils, T : Tables} (bytes : bytes) (mi : jsnum) (size : Z) :
  (get bytes 9 = Some 0
   ∧ ∃ tg, FrameTypeMap !! readBytesToUTF8 bytes (Some 4) = Some tg
           ∧ frame_id (parseFrame bytes mi size) = readBytesToUTF8 bytes (Some 4)
           ∧ frame_tag (parseFrame bytes mi size) = Some tg)
  ∨ ((get bytes 9 ≠ Some 0 ∨ FrameTypeMap !! readBytesToUTF8 bytes (Some 4) = None)
     ∧ parseFrame bytes mi size = mkFrame (readBytesToUTF8 bytes (Some 4)) None VNull).
Proof.
  unfold parseFrame.
  destruct (get bytes 9) as [[|?|?]|]; cbn [isZero negb]; cbv iota;
    try (right; split; [by left|done]).
  destruct (FrameTypeMap !! readBytesToUTF8 bytes (Some 4)) as [tg|].
  - left. split; [done|]. by exists tg.
  - right. split; [by right|done].
Qed.

(** X8: when [parseFrame] gives a semantic tag.  The identifier is the four
    decoded characters; the tag is set exactly when byte 9 is 0 and the
    identifier is in the frame-type table, and is then the table's entry;
    without a tag the value is null; a slice of fewer than 10 bytes, as the
    loop can hand over at the end of a body, gives neither; and neither the
    minor version nor the size argument changes the result. *)
Theorem parseFrame_tag_iff `{U : Utils, T : Tables}
    (bytes : bytes) (mi mi' : jsnum) (size size' : Z) (tag : jsstring) :
  frame_id (parseFrame bytes mi size) = readBytesToUTF8 bytes (Some 4)
  ∧ (frame_tag (parseFrame bytes mi size) = Some tag ↔
       get bytes 9 = Some 0 ∧ FrameTypeMap !! readBytesToUTF8 bytes (Some 4) = Some tag)
  ∧ (frame_tag (parseFrame bytes mi size) = None →
       frame_value (parseFrame bytes mi size) = VNull)
  ∧ (len bytes < 10 →
       frame_tag (parseFrame bytes mi size) = None
       ∧ frame_value (parseFrame bytes mi size) = VNull)
  ∧ parseFrame bytes mi' size' = parseFrame bytes mi size.
Proof.
  assert (Hshort : len bytes < 10 → get bytes 9 = None).
  { intros Hlen. unfold get. change (9 <? 0) with false. cbv iota.
    apply lookup_ge_None. unfold len in Hlen. lia. }
  rewrite (parseFrame_header_args bytes mi' mi size' size).
  destruct (parseFrame_cases bytes mi size)
    as [(Hflag & tg & Hid & Hfid & Hftag)|[Hno ->]].
  - rewrite Hfid, Hftag.
    split; [done|]. split; [|split; [done|split; [|done]]].
    + split; [intros [= <-]; done|]. intros [_ Htag]. congruence.
    + intros Hlen. apply Hshort in Hlen. congruence.
  - cbn [frame_id frame_tag frame_value].
    split; [done|]. split; [|done]. split; [done|].
    intros [Hflag Hid]. destruct Hno as [Hno|Hno]; congruence.
Qed.

(** ** The tag record *)

Section Record.
Context {U : Utils} {T : Tables}.

(** Storing a frame touches no property but the one of its tag. *)
Lemma storeFrame_other_keys (tags tags' : Tags) (frame : Frame) (key : jsstring) :
  storeFrame tags frame = inr tags' →
  frame_tag frame ≠ Some key → tags' !! key = tags !! key.
Proof.
  unfold storeFrame. destruct (frame_tag frame) as [tag|]; [|by intros [= ->]].
  intros Hst Hne. assert (tag ≠ key) by congruence.
  destruct (truthyString tag); [|by simplify_eq].
  destruct (bool_decide _).
  - destruct (tags !! tag) as [[v|v|vs]|]; try done;
      try (destruct (truthyValue v); [done|]);
      simplify_eq; by rewrite lookup_insert_ne.
  - simplify_eq. by rewrite lookup_insert_ne.
Qed.

(** The properties of the record are those it had and the semantic tags of
    the table. *)
Lemma trace_keys (bs : bytes) (mi : jsnum) (position : Z) (tags : Tags) (r : Run) :
  LoopTrace bs mi position tags r →
  ∀ key, is_Some (run_tags r !! key) →
    is_Some (tags !! key) ∨ ∃ id, FrameTypeMap !! id = Some key.
Proof.
  induction 1 as [| | | |q tags sz s0 f0 tags' r Hq -> Hnz -> Hne -> Hst Htr IH];
    intros key Hkey; try (by left).
  destruct (IH key Hkey) as [Hin|Hid]; [|by right].
  destruct (decide (frame_tag (parseFrame
              (slice bs q (Some (q + 10 + calcFrameSize (slice bs (q + 4) None))))
              mi (calcFrameSize (slice bs (q + 4) None))) = Some key)) as [Htag|Htag].
  - right. eexists. by apply parseFrame_fromTable in Htag.
  - left. by rewrite <- (storeFrame_other_keys _ _ _ key Hst Htag).
Qed.

End Record.

(** X9: what a stored frame changes.  Storing a frame leaves every
    property of the tag record but the one named by its tag as it was;
    a frame without a tag, or with an empty one, changes nothing; and a
    frame whose identifier is not multi-valued never makes the store
    throw. *)
Theorem storeFrame_effect `{T : Tables} (tags tags' : Tags) (frame : Frame)
    (key : jsstring) :
  storeFrame tags frame = inr tags' →
  (frame_tag frame ≠ Some key → tags' !! key = tags !! key)
  ∧ (frame_tag frame = None ∨ frame_tag frame = Some [] → tags' = tags)
  ∧ (isArrayId (frame_id frame) = false →
       ∀ tag, frame_tag frame = Some tag → tag ≠ [] →
         tags' = <[tag := TValue (frame_value frame)]> tags)
  ∧ ∀ tags0 frame0, isArrayId (frame_id frame0) = false →
      ∃ tags1, storeFrame tags0 frame0 = inr tags1.
Proof.
  intros Hst. split; [by apply storeFrame_other_keys|]. split; [|split].
  - unfold storeFrame in Hst. intros [Hnone|Hempty].
    + rewrite Hnone in Hst. by simplify_eq.
    + rewrite Hempty in Hst. cbn in Hst. by simplify_eq.
  - intros Harr tag Htag Hne. unfold storeFrame in Hst. rewrite Htag in Hst.
    fold (isArrayId (frame_id frame)) in Hst. rewrite Harr in Hst.
    destruct tag; [done|]. cbn in Hst. by simplify_eq.
  - intros tags0 frame0 Harr. unfold storeFrame.
    fold (isArrayId (frame_id frame0)). rewrite Harr.
    destruct (frame_tag frame0) as [tag|]; [|by eexists].
    destruct (truthyString tag); by eexists.
Qed.

Lemma storeFrame_effect_witness :
  <[str "title" := TValue (VStr (str "ab"))]> (headerTags Samples.version230)
    !! str "version"
  = headerTags Samples.version230 !! str "version".
Proof.
  refine (proj1 (storeFrame_effect (T:=SpecModel.tables)
            (headerTags Samples.version230)
            (<[str "title" := TValue (VStr (str "ab"))]> (headerTags Samples.version230))
            (mkFrame (str "TIT2") (Some (str "title")) (VStr (str "ab")))
            (str "version") _) _).
  - reflexivity.
  - discriminate.
Defined.

(** X10: the record [parseV2Data] returns.  Its properties are [version]
    and semantic tags of the frame-type table, nothing else; and with
    consistent tables the version is the one read from the ten header
    bytes, which no frame replaces. *)
Theorem returned_record_keys `{U : Utils, T : Tables} (bytes : bytes) (tags : Tags) :
  parseV2Data (Some bytes) = RTags tags →
  (∀ key, is_Some (tags !! key) →
     key = str "version" ∨ ∃ id, FrameTypeMap !! id = Some key)
  ∧ (tablesConsistent T →
     tags !! str "version"
     = Some (TVersion (headerVersion (slice bytes 0 (Some 10)))))
  ∧ 20 ≤ len bytes
  ∧ readBytesToUTF8 (slice bytes 0 (Some 10)) (Some 3) = str "ID3".
Proof.
  unfold parseV2Data, V2_MIN_LENGTH.
  destruct (Z.ltb_spec (len bytes) 20) as [|Hlen]; [done|].
  rewrite parseV2Header_ten by (rewrite len_slice_range by lia; lia).
  unfold strEq. case_bool_decide as Hmagic; [|done].
  rewrite versionFlags_header. destruct (unsync _); [done|].
  match goal with |- context [parseV2Frames ?b ?t] =>
    set (body := b); set (v := headerVersion (slice bytes 0 (Some 10))) in * end.
  destruct (run_end (parseV2Frames body (headerTags v))) eqn:Hend; try done.
  intros [= <-]. split; [|split; [|done]].
  - intros key Hkey.
    destruct (trace_keys _ _ _ _ _ (parseV2Frames_trace body (headerTags v)) key Hkey)
      as [Hin|Hid]; [|by right].
    left. unfold headerTags in Hin.
    destruct (decide (str "version" = key)) as [<-|Hne]; [done|].
    rewrite lookup_singleton_ne in Hin by done. by destruct Hin.
  - intros HT.
    by destruct (parseV2Frames_assembled (U:=U) body v HT) as (_ & _ & Hv & _).
Qed.

Lemma returned_record_keys_witness :
  20 ≤ len Samples.truncatedBuffer.
Proof.
  refine (proj1 (proj2 (proj2
    (returned_record_keys (U:=SpecModel.utils) (T:=SpecModel.tables)
       Samples.truncatedBuffer
       (<[str "title" := TValue (VStr (str "ab"))]> (headerTags Samples.version230))
       _)))).
  vm_compute. reflexivity.
Defined.

(** ** What follows the tag *)

Lemma slice_app_l {A} (l x : list A) (a e : Z) :
  0 ≤ a → 0 ≤ e ≤ len l →
  slice (l ++ x) a (Some e) = slice l a (Some e).
Proof.
  intros Ha He. rewrite !slice_range by lia. unfold len in He.
  destruct (Z.le_gt_cases a e) as [Hae|Hae].
  - rewrite drop_app_le by lia. apply take_app_le. rewrite length_drop. lia.
  - replace (Z.to_nat (e - a)) with 0%nat by lia. done.
Qed.

(** X11: [parseV2Data] reads nothing behind the end of the tag that the
    header declares.  When the buffer holds the whole declared tag (and the
    20 bytes the parser insists on), whatever follows it, audio data for
    one, does not change the result. *)
Theorem bytes_after_tag_ignored `{U : Utils, T : Tables} (bytes extra : bytes) :
  20 ≤ len bytes →
  frameBodyEnd bytes ≤ len bytes →
  parseV2Data (Some (bytes ++ extra)) = parseV2Data (Some bytes).
Proof.
  intros Hlen Hend. unfold parseV2Data, V2_MIN_LENGTH.
  pose proof (len_nonneg extra).
  destruct (Z.ltb_spec (len (bytes ++ extra)) 20) as [Hs|_];
    [rewrite len_app in Hs; lia|].
  destruct (Z.ltb_spec (len bytes) 20) as [|_]; [lia|].
  rewrite !(slice_app_l bytes extra) by lia.
  rewrite parseV2Header_ten by (rewrite len_slice_range by lia; lia).
  destruct (strEq _ _); [|done].
  rewrite versionFlags_header. destruct (unsync _); [done|].
  unfold frameBodyEnd, frameBodyStart in Hend.
  pose proof (calcTagSize_range (slice bytes 10 (Some 14))).
  pose proof (calcTagSize_range (slice bytes 6 (Some 10))).
  rewrite (slice_app_l bytes extra); [done| |].
  - destruct (xheader _); lia.
  - destruct (xheader _); lia.
Qed.

Lemma bytes_after_tag_ignored_witness :
  parseV2Data (U:=SpecModel.utils) (T:=SpecModel.tables)
    (Some ((Samples.header 0 13 ++ Samples.wholeTitle ++ [0; 0; 0; 0; 0; 0; 0])
           ++ [255; 251; 144; 0]))
  = parseV2Data (U:=SpecModel.utils) (T:=SpecModel.tables)
      (Some (Samples.header 0 13 ++ Samples.wholeTitle ++ [0; 0; 0; 0; 0; 0; 0])).
Proof.
  refine (bytes_after_tag_ignored (U:=SpecModel.utils) (T:=SpecModel.tables)
            (Samples.header 0 13 ++ Samples.wholeTitle ++ [0; 0; 0; 0; 0; 0; 0])
            [255; 251; 144; 0] _ _).
  - vm_compute. discriminate.
  - vm_compute. discriminate.
Defined.

(** ** The description scan finds the terminator *)

Lemma isZero_false (x : jsnum) : isZero x = false ↔ x ≠ Some 0.
Proof. destruct x as [[| |]|]; simpl; split; congruence. Qed.

Lemma apicScan_finds (fuel : nat) (bytes : bytes) (i k : Z) :
  i ≤ k < APIC_SCAN_LIMIT → k - i < Z.of_nat fuel →
  get bytes k = Some 0 →
  (∀ j, i ≤ j < k → get bytes j ≠ Some 0) →
  apicScan fuel bytes i = (Some k, seqZ i (k - i + 1)).
Proof.
  revert i. induction fuel as [|fuel IH]; intros i Hk Hfuel Hzero Hnon; [lia|].
  cbn [apicScan]. destruct (Z.ltb_spec i APIC_SCAN_LIMIT); [|lia].
  destruct (decide (i = k)) as [->|Hne].
  - rewrite Hzero. cbn [isZero]. replace (k - k + 1) with 1 by lia. done.
  - rewrite (proj2 (isZero_false _) (Hnon i ltac:(lia))).
    rewrite (IH (i + 1)) by (try lia; try done; intros j Hj; apply Hnon; lia).
    cbn [fst snd]. f_equal. rewrite (seqZ_cons i) by lia. f_equal. f_equal; lia.
Qed.

Lemma apicScan_none (fuel : nat) (bytes : bytes) (i : Z) :
  (∀ j, i ≤ j < APIC_SCAN_LIMIT → get bytes j ≠ Some 0) →
  (apicScan fuel bytes i).1 = None.
Proof.
  revert i. induction fuel as [|fuel IH]; intros i Hnon; [done|].
  cbn [apicScan]. destruct (Z.ltb_spec i APIC_SCAN_LIMIT); [|done].
  rewrite (proj2 (isZero_false _) (Hnon i ltac:(lia))). cbn [fst].
  apply IH. intros j Hj. apply Hnon. lia.
Qed.

(** X12: the description scan of an attached picture returns the first
    index from its start on, below 36700160, at which the frame holds a
    null byte, having read the indices up to it and no other; it finds
    nothing exactly when there is no null byte in that range, be it that
    the frame ends before. *)
Theorem picture_scan_finds_first_null (bytes : bytes) (start : Z) :
  (∀ k, start ≤ k < APIC_SCAN_LIMIT →
     get bytes k = Some 0 → (∀ j, start ≤ j < k → get bytes j ≠ Some 0) →
     apicScan (apicScanFuel start) bytes start = (Some k, seqZ start (k - start + 1)))
  ∧ ((apicScan (apicScanFuel start) bytes start).1 = None ↔
     ∀ j, start ≤ j < APIC_SCAN_LIMIT → get bytes j ≠ Some 0)
  ∧ ∀ k, (apicScan (apicScanFuel start) bytes start).1 = Some k →
      start ≤ k < APIC_SCAN_LIMIT ∧ get bytes k = Some 0
      ∧ ∀ j, start ≤ j < k → get bytes j ≠ Some 0.
Proof.
  assert (Hfind : ∀ k, start ≤ k < APIC_SCAN_LIMIT →
     get bytes k = Some 0 → (∀ j, start ≤ j < k → get bytes j ≠ Some 0) →
     apicScan (apicScanFuel start) bytes start = (Some k, seqZ start (k - start + 1))).
  { intros k Hk Hzero Hnon. apply apicScan_finds; try done.
    unfold apicScanFuel. rewrite Z2Nat.id by lia. lia. }
  assert (Hsound : ∀ fuel i k, (apicScan fuel bytes i).1 = Some k →
     i ≤ k < APIC_SCAN_LIMIT ∧ get bytes k = Some 0
     ∧ ∀ j, i ≤ j < k → get bytes j ≠ Some 0).
  { induction fuel as [|fuel IH]; intros i k; [done|]. cbn [apicScan].
    destruct (Z.ltb_spec i APIC_SCAN_LIMIT); [|done].
    destruct (isZero (get bytes i)) eqn:Hz; cbn [fst].
    - intros [= <-]. split; [lia|]. split; [|intros j; lia].
      destruct (get bytes i) as [[| |]|]; done.
    - intros Hk. destruct (IH _ _ Hk) as (Hr & Hzero & Hnon).
      split; [lia|]. split; [done|]. intros j Hj.
      destruct (decide (j = i)) as [->|]; [by apply isZero_false|].
      apply Hnon. lia. }
  assert (Hcomplete : ∀ fuel i, APIC_SCAN_LIMIT - i ≤ Z.of_nat fuel →
     (apicScan fuel bytes i).1 = None →
     ∀ j, i ≤ j < APIC_SCAN_LIMIT → get bytes j ≠ Some 0).
  { induction fuel as [|fuel IH]; intros i Hfuel; [intros _ j Hj; lia|].
    cbn [apicScan]. destruct (Z.ltb_spec i APIC_SCAN_LIMIT); [|intros _ j Hj; lia].
    destruct (isZero (get bytes i)) eqn:Hz; cbn [fst]; [done|].
    intros Hnone j Hj. destruct (decide (j = i)) as [->|]; [by apply isZero_false|].
    apply (IH (i + 1)); [lia|done|lia]. }
  split; [done|]. split; [|by apply Hsound].
  split; [|apply apicScan_none].
  apply Hcomplete. unfold apicScanFuel. lia.
Qed.

(** ** Frames in ISO-8859-1 *)

Lemma SpecModel_latin1Helpers : latin1Helpers SpecModel.utils.
Proof. by repeat split. Qed.

Lemma findNull_no_null (desc rest : bytes) (i : Z) :
  Forall (λ b, b ≠ 0) desc →
  SpecModel.findNull false (desc ++ 0 :: rest) i = i + len desc.
Proof.
  intros Hdesc. revert i. induction Hdesc as [|b desc Hb _ IH]; intros i.
  - cbn. unfold len. simpl. lia.
  - cbn [app SpecModel.findNull]. destruct (Z.eqb_spec b 0); [done|].
    cbn [andb]. rewrite IH. unfold len. cbn [length]. lia.
Qed.

Lemma skipNullsFrom_takeWhile (v : bytes) (i : Z) :
  SpecModel.skipNullsFrom v i = i + len (takeWhile isNull v).
Proof.
  revert i. induction v as [|b v IH]; intros i; [unfold len; simpl; lia|].
  destruct b; cbn [SpecModel.skipNullsFrom takeWhile isNull Z.eqb];
    [|unfold len; simpl; lia..].
  rewrite IH. unfold len. cbn [length]. lia.
Qed.

Lemma drop_takeWhile {A} (p : A → bool) (l : list A) :
  drop (length (takeWhile p l)) l = dropWhile p l.
Proof. induction l as [|x l IH]; [done|]. simpl. by destruct (p x). Qed.

Lemma dropWhile_suffix {A} (p : A → bool) (P : A → Prop) (l : list A) :
  Forall P l → Forall P (dropWhile p l).
Proof.
  induction 1 as [|x l Hx Hl IH]; [done|]. simpl. destruct (p x); [done|].
  by constructor.
Qed.

Section Latin1.
Context {U : Utils} {T : Tables}.
Hypothesis helpers : latin1Helpers U.

(** A string that ends with a null byte, found at offset [start]. *)
Lemma terminated_string_at (pre desc rest : bytes) (start : Z) :
  is_bytes (pre ++ desc ++ 0 :: rest) → len pre = start →
  Forall (λ b, b ≠ 0) desc →
  getEndpointOfBytes (pre ++ desc ++ 0 :: rest) (Some 0) start = start + len desc
  ∧ readBytesToString (slice (pre ++ desc ++ 0 :: rest) start None) (Some 0)
      (Some (len desc)) = Some desc
  ∧ slice (pre ++ desc ++ 0 :: rest) start None = desc ++ 0 :: rest.
Proof.
  intros Hb Hpre Hdesc. destruct helpers as (Hstr & _ & _ & Hend & _).
  pose proof (len_nonneg pre).
  assert (Hslice : slice (pre ++ desc ++ 0 :: rest) start None = desc ++ 0 :: rest).
  { rewrite slice_from by lia. rewrite <- Hpre. unfold len. rewrite Nat2Z.id.
    by rewrite drop_app_length. }
  split; [|split; [|done]].
  - rewrite Hend by (done || lia). unfold firstNull.
    rewrite <- slice_from, Hslice by lia.
    rewrite findNull_no_null by done. lia.
  - rewrite Hslice. rewrite Hstr.
    + unfold len. rewrite Nat2Z.id. by rewrite take_app_length.
    + by apply Forall_app in Hb as [_ Hb].
    + apply len_nonneg.
Qed.

(** The rest of a frame from offset [start] on, its leading null bytes
    skipped. *)
Lemma rest_after_padding (pre v : bytes) (start : Z) :
  is_bytes (pre ++ v) → len pre = start →
  slice (pre ++ v) (skipPaddingZeros (pre ++ v) start) None = dropWhile isNull v
  ∧ readBytesToString (slice (pre ++ v) (skipPaddingZeros (pre ++ v) start) None)
      (Some 0) None = Some (dropWhile isNull v).
Proof.
  intros Hb Hpre. destruct helpers as (_ & Hall & _ & _ & Hskip).
  pose proof (len_nonneg pre). pose proof (len_nonneg (takeWhile isNull v)).
  assert (Hslice : slice (pre ++ v) (skipPaddingZeros (pre ++ v) start) None
                   = dropWhile isNull v).
  { rewrite Hskip by (done || lia). unfold firstNonNull.
    rewrite <- Hpre at 1. unfold len at 1. rewrite Nat2Z.id, drop_app_length.
    rewrite skipNullsFrom_takeWhile, Z.max_l by lia.
    rewrite slice_from by lia. rewrite <- Hpre. unfold len.
    rewrite <- Nat2Z.inj_add, Nat2Z.id. rewrite <- drop_drop, drop_app_length.
    apply drop_takeWhile. }
  split; [done|]. rewrite Hslice. apply Hall.
  apply dropWhile_suffix. by apply Forall_app in Hb as [_ Hb].
Qed.

(** What [parseFrame] computes for a user-defined text frame and for a
    comment or lyrics frame. *)
Lemma parseFrame_userText (bytes : bytes) (mi : jsnum) (size : Z) (tag : jsstring) :
  readBytesToUTF8 bytes (Some 4) = str "TXXX" →
  get bytes 9 = Some 0 →
  FrameTypeMap !! str "TXXX" = Some tag →
  frame_value (parseFrame bytes mi size)
  = VUserText
      (readBytesToString (slice bytes 11 None) (get bytes 10)
         (Some (getEndpointOfBytes bytes (get bytes 10) 11 - 11)))
      (readBytesToString
         (slice bytes
            (skipPaddingZeros bytes
               (11 + (getEndpointOfBytes bytes (get bytes 10) 11 - 11 + 1))) None)
         (get bytes 10) None).
Proof.
  intros Hid Hflag Htag. unfold parseFrame. rewrite Hid, Hflag, Htag.
  change (negb (isZero (Some 0))) with false. cbv iota. cbn [frame_value].
  change (firstCharIs (str "TXXX") "T") with true.
  change (strEq (str "TXXX") (str "TXXX")) with true.
  reflexivity.
Qed.

Lemma parseFrame_comment (bytes : bytes) (mi : jsnum) (size : Z) (id tag : jsstring) :
  id = str "COMM" ∨ id = str "USLT" →
  readBytesToUTF8 bytes (Some 4) = id →
  get bytes 9 = Some 0 →
  FrameTypeMap !! id = Some tag →
  frame_value (parseFrame bytes mi size)
  = VComment
      (readBytesToISO8859 (slice bytes 11 None) (Some 3))
      (readBytesToString (slice bytes 14 None) (get bytes 10)
         (Some (getEndpointOfBytes bytes (get bytes 10) 14 - 14)))
      (readBytesToString
         (slice bytes
            (skipPaddingZeros bytes
               (14 + (getEndpointOfBytes bytes (get bytes 10) 14 - 14) + 1)) None)
         (get bytes 10) None).
Proof.
  intros Hcase Hid Hflag Htag. unfold parseFrame. rewrite Hid, Hflag, Htag.
  change (negb (isZero (Some 0))) with false. cbv iota. cbn [frame_value].
  destruct Hcase as [-> | ->].
  - change (firstCharIs (str "COMM") "T") with false.
    change (firstCharIs (str "COMM") "W") with false.
    change (strEq (str "COMM") (str "COMM")) with true.
    reflexivity.
  - change (firstCharIs (str "USLT") "T") with false.
    change (firstCharIs (str "USLT") "W") with false.
    change (strEq (str "USLT") (str "COMM")) with false.
    change (strEq (str "USLT") (str "USLT")) with true.
    reflexivity.
Qed.

End Latin1.

Lemma get_app_at {A} (pre rest : list A) (x : A) (i : Z) :
  len pre = i → get (pre ++ x :: rest) i = Some x.
Proof.
  intros <-. unfold get, len. destruct (Z.ltb_spec (Z.of_nat (length pre)) 0); [lia|].
  rewrite Nat2Z.id. apply list_lookup_middle. done.
Qed.

Lemma get_in_string (pre desc rest : bytes) (j : Z) :
  Forall (λ b, b ≠ 0) desc →
  len pre ≤ j < len pre + len desc →
  get (pre ++ desc ++ rest) j ≠ Some 0.
Proof.
  intros Hdesc Hj. replace j with (len pre + (j - len pre)) by lia.
  rewrite get_app_shift by lia. unfold get.
  destruct (Z.ltb_spec (j - len pre) 0); [lia|].
  rewrite lookup_app_l by (unfold len in *; lia).
  intros Hz. rewrite Forall_lookup in Hdesc. by apply Hdesc in Hz.
Qed.

(** X13: a user-defined text frame ([TXXX]) in ISO-8859-1.  For a frame
    of a ten-byte header, the encoding byte 0, a description without null
    bytes, one null byte and a value, the decoder returns the description
    and the value; null bytes at the start of the value are dropped. *)
Theorem user_text_frame_decodes `{U : Utils, T : Tables}
    (bytes head desc value : bytes) (mi : jsnum) (size : Z) (tag : jsstring) :
  latin1Helpers U → is_bytes bytes →
  bytes = head ++ 0 :: desc ++ 0 :: value → len head = 10 →
  readBytesToUTF8 bytes (Some 4) = str "TXXX" →
  get bytes 9 = Some 0 →
  FrameTypeMap !! str "TXXX" = Some tag →
  Forall (λ b, b ≠ 0) desc →
  frame_tag (parseFrame bytes mi size) = Some tag
  ∧ frame_value (parseFrame bytes mi size)
    = VUserText (Some desc) (Some (dropWhile isNull value)).
Proof.
  intros HU Hb -> Hhead Hid Hflag Htag Hdesc.
  split.
  { destruct (parseFrame_cases (head ++ 0 :: desc ++ 0 :: value) mi size)
      as [(_ & tg & Hid' & _ & ->)|[[?|Hno] _]]; congruence. }
  rewrite (parseFrame_userText _ mi size tag Hid Hflag Htag).
  rewrite (get_app_at head _ 0 10 Hhead).
  assert (Heq1 : head ++ 0 :: desc ++ 0 :: value = (head ++ [0]) ++ desc ++ 0 :: value)
    by by rewrite <- app_assoc.
  assert (Hpre1 : len (head ++ [0]) = 11) by (rewrite len_app; unfold len in *; simpl; lia).
  rewrite Heq1 in *.
  destruct (terminated_string_at HU _ desc value 11 Hb Hpre1 Hdesc) as (-> & Hd & _).
  replace (11 + len desc - 11) with (len desc) by lia. rewrite Hd. f_equal.
  assert (Heq2 : (head ++ [0]) ++ desc ++ 0 :: value
                 = ((head ++ [0]) ++ desc ++ [0]) ++ value)
    by by rewrite <- !app_assoc.
  rewrite Heq2 in *.
  apply (rest_after_padding HU _ value); [done|].
  rewrite !len_app. unfold len in *. simpl. lia.
Qed.

Lemma user_text_frame_decodes_witness :
  frame_value (parseFrame (U:=SpecModel.utils) (T:=SpecModel.tables)
                 Samples.userTextFrame (Some 3) 9)
  = VUserText (Some (ascii "mood")) (Some (dropWhile isNull ([0; 0] ++ ascii "ok"))).
Proof.
  refine (proj2 (user_text_frame_decodes (U:=SpecModel.utils) (T:=SpecModel.tables)
            Samples.userTextFrame (ascii "TXXX" ++ [0; 0; 0; 9; 0; 0]) (ascii "mood")
            ([0; 0] ++ ascii "ok") (Some 3) 9 (str "user-defined-text-information")
            SpecModel_latin1Helpers _ _ _ _ _ _ _)).
  - by_compute.
  - reflexivity.
  - reflexivity.
  - reflexivity.
  - reflexivity.
  - reflexivity.
  - by_compute.
Defined.

(** X14: a comment or lyrics frame ([COMM], [USLT]) in ISO-8859-1.  For a
    frame of a ten-byte header, the encoding byte 0, three bytes of
    language, a description without null bytes, one null byte and a text,
    the decoder returns the language, the description and the text; null
    bytes at the start of the text are dropped. *)
Theorem comment_frame_decodes `{U : Utils, T : Tables}
    (bytes head language desc text : bytes) (mi : jsnum) (size : Z)
    (id tag : jsstring) :
  latin1Helpers U → is_bytes bytes →
  bytes = head ++ 0 :: language ++ desc ++ 0 :: text →
  len head = 10 → len language = 3 →
  id = str "COMM" ∨ id = str "USLT" →
  readBytesToUTF8 bytes (Some 4) = id →
  get bytes 9 = Some 0 →
  FrameTypeMap !! id = Some tag →
  Forall (λ b, b ≠ 0) desc →
  frame_tag (parseFrame bytes mi size) = Some tag
  ∧ frame_value (parseFrame bytes mi size)
    = VComment language (Some desc) (Some (dropWhile isNull text)).
Proof.
  intros HU Hb -> Hhead Hlang Hcase Hid Hflag Htag Hdesc.
  split.
  { destruct (parseFrame_cases (head ++ 0 :: language ++ desc ++ 0 :: text) mi size)
      as [(_ & tg & Hid' & _ & ->)|[[?|Hno] _]]; congruence. }
  rewrite (parseFrame_comment _ mi size id tag Hcase Hid Hflag Htag).
  rewrite (get_app_at head _ 0 10 Hhead).
  assert (Hlanguage : readBytesToISO8859
            (slice (head ++ 0 :: language ++ desc ++ 0 :: text) 11 None) (Some 3)
          = language).
  { destruct HU as (_ & _ & Hiso & _). rewrite slice_from by lia.
    replace (head ++ 0 :: language ++ desc ++ 0 :: text)
      with ((head ++ [0]) ++ language ++ desc ++ 0 :: text) in * by by rewrite <- app_assoc.
    replace (Z.to_nat 11) with (length (head ++ [0]))
      by (rewrite length_app; unfold len in *; simpl; lia).
    rewrite drop_app_length. rewrite Hiso; [|by apply Forall_app in Hb as [_ Hb]|lia].
    replace (Z.to_nat 3) with (length language) by (unfold len in *; lia).
    by rewrite take_app_length. }
  rewrite Hlanguage.
  assert (Heq1 : head ++ 0 :: language ++ desc ++ 0 :: text
                 = (head ++ 0 :: language) ++ desc ++ 0 :: text)
    by (by rewrite <- app_assoc).
  assert (Hpre1 : len (head ++ 0 :: language) = 14)
    by (rewrite len_app; unfold len in *; simpl; lia).
  rewrite Heq1 in *.
  destruct (terminated_string_at HU _ desc text 14 Hb Hpre1 Hdesc) as (-> & Hd & _).
  replace (14 + len desc - 14) with (len desc) by lia. rewrite Hd. f_equal.
  assert (Heq2 : (head ++ 0 :: language) ++ desc ++ 0 :: text
                 = ((head ++ 0 :: language) ++ desc ++ [0]) ++ text)
    by by rewrite <- !app_assoc.
  rewrite Heq2 in *.
  apply (rest_after_padding HU _ text); [done|].
  rewrite !len_app. unfold len in *. simpl. lia.
Qed.

Lemma comment_frame_decodes_witness :
  frame_value (parseFrame (U:=SpecModel.utils) (T:=SpecModel.tables)
                 (Samples.commentFrame "eng" "hi") (Some 3) 7)
  = VComment (ascii "eng") (Some []) (Some (dropWhile isNull (ascii "hi"))).
Proof.
  refine (proj2 (comment_frame_decodes (U:=SpecModel.utils) (T:=SpecModel.tables)
            (Samples.commentFrame "eng" "hi") (ascii "COMM" ++ [0; 0; 0; 7; 0; 0])
            (ascii "eng") [] (ascii "hi") (Some 3) 7 (str "COMM") (str "comments")
            SpecModel_latin1Helpers _ _ _ _ _ _ _ _ _)).
  - by_compute.
  - reflexivity.
  - reflexivity.
  - reflexivity.
  - by left.
  - reflexivity.
  - reflexivity.
  - reflexivity.
  - constructor.
Defined.

(** X15: an attached picture ([APIC]) in ISO-8859-1.  For a frame of at
    most 36700160 bytes made of a ten-byte header, the encoding byte 0, a
    MIME type without null bytes, one null byte, the picture-type byte, a
    description without null bytes, one null byte and the picture data, the
    decoder returns the name of the picture type, the MIME type, the
    description (null when it is empty) and the data; null bytes at the
    start of the data are dropped. *)
Theorem picture_frame_decodes `{U : Utils, T : Tables}
    (bytes head mime desc data : bytes) (ptype : Z) (mi : jsnum) (size : Z)
    (tag : jsstring) :
  latin1Helpers U → is_bytes bytes →
  bytes = head ++ 0 :: mime ++ 0 :: ptype :: desc ++ 0 :: data →
  len head = 10 →
  len bytes ≤ APIC_SCAN_LIMIT →
  readBytesToUTF8 bytes (Some 4) = str "APIC" →
  get bytes 9 = Some 0 →
  FrameTypeMap !! str "APIC" = Some tag →
  Forall (λ b, b ≠ 0) mime → Forall (λ b, b ≠ 0) desc →
  frame_tag (parseFrame bytes mi size) = Some tag
  ∧ frame_value (parseFrame bytes mi size)
    = VImage (imageTypeAt (Some ptype)) (Some mime)
        (if decide (desc = []) then None else Some desc)
        (dropWhile isNull data).
Proof.
  intros HU Hb -> Hhead Hlimit Hid Hflag Htag Hmime Hdesc.
  split.
  { destruct (parseFrame_cases (head ++ 0 :: mime ++ 0 :: ptype :: desc ++ 0 :: data)
                mi size) as [(_ & tg & Hid' & _ & ->)|[[?|Hno] _]]; congruence. }
  rewrite (parseFrame_picture _ mi size tag Hid Hflag Htag).
  unfold apicDescriptionLength, apicScanStart.
  rewrite (get_app_at head _ 0 10 Hhead).
  set (pre1 := head ++ [0]).
  set (pre3 := pre1 ++ mime ++ [0; ptype]).
  set (pre4 := pre3 ++ desc ++ [0]).
  assert (Hpre1 : len pre1 = 11)
    by (unfold pre1; rewrite len_app; unfold len in *; simpl; lia).
  assert (Hpre3 : len pre3 = 13 + len mime)
    by (unfold pre3; rewrite !len_app, Hpre1; unfold len; simpl; lia).
  assert (Hpre4 : len pre4 = 13 + len mime + len desc + 1)
    by (unfold pre4; rewrite !len_app, Hpre3; unfold len; simpl; lia).
  assert (Heq1 : head ++ 0 :: mime ++ 0 :: ptype :: desc ++ 0 :: data
                 = pre1 ++ mime ++ 0 :: (ptype :: desc ++ 0 :: data))
    by (unfold pre1; by rewrite <- app_assoc).
  assert (Heq3 : pre1 ++ mime ++ 0 :: (ptype :: desc ++ 0 :: data)
                 = pre3 ++ desc ++ 0 :: data)
    by (unfold pre3; by rewrite <- !app_assoc).
  assert (Heq4 : pre3 ++ desc ++ 0 :: data = pre4 ++ data)
    by (unfold pre4; by rewrite <- !app_assoc).
  pose proof (len_nonneg mime). pose proof (len_nonneg desc). pose proof (len_nonneg data).
  rewrite Heq1 in *.
  destruct (terminated_string_at HU pre1 mime _ 11 Hb Hpre1 Hmime) as (-> & Hm & _).
  replace (11 + len mime - 11) with (len mime) by lia. rewrite Hm.
  replace (11 + (len mime + 2)) with (13 + len mime) by lia.
  assert (Htype : get (pre1 ++ mime ++ 0 :: ptype :: desc ++ 0 :: data)
                    (11 + len mime + 1) = Some ptype).
  { replace (pre1 ++ mime ++ 0 :: ptype :: desc ++ 0 :: data)
      with ((pre1 ++ mime ++ [0]) ++ ptype :: desc ++ 0 :: data)
      by (by rewrite <- !app_assoc).
    apply get_app_at. rewrite !len_app, Hpre1. unfold len. simpl. lia. }
  rewrite Htype. rewrite Heq3 in *.
  assert (Hscan : apicScan (apicScanFuel (13 + len mime)) (pre3 ++ desc ++ 0 :: data)
                    (13 + len mime)
                  = (Some (13 + len mime + len desc),
                     seqZ (13 + len mime) (13 + len mime + len desc - (13 + len mime) + 1))).
  { apply apicScan_finds.
    - rewrite !len_app in Hlimit. unfold len in Hlimit at 3. simpl in Hlimit. lia.
    - rewrite !len_app in Hlimit. unfold len in Hlimit at 3. simpl in Hlimit.
      unfold apicScanFuel. lia.
    - rewrite app_assoc. apply get_app_at. rewrite len_app. lia.
    - intros j Hj. apply get_in_string; [done|lia]. }
  rewrite Hscan. cbn [fst].
  replace (13 + len mime + len desc - (13 + len mime)) with (len desc) by lia.
  f_equal.
  - destruct desc as [|d desc]; [done|].
    destruct (Z.eqb_spec (len (d :: desc)) 0) as [Hz|_];
      [unfold len in Hz; simpl in Hz; lia|].
    rewrite decide_False by done.
    by destruct (terminated_string_at HU pre3 (d :: desc) data _ Hb Hpre3 Hdesc)
      as (_ & -> & _).
  - rewrite Heq4 in *.
    apply (rest_after_padding HU pre4 data); [done|lia].
Qed.

Lemma picture_frame_decodes_witness :
  frame_value (parseFrame (U:=SpecModel.utils) (T:=SpecModel.tables)
                 Samples.pictureFrame (Some 3) 21)
  = VImage (imageTypeAt (T:=SpecModel.tables) (Some 3)) (Some (ascii "image/png"))
      (if decide (ascii "art" = []) then None else Some (ascii "art"))
      (dropWhile isNull [0; 137; 80; 78; 71; 0]).
Proof.
  refine (proj2 (picture_frame_decodes (U:=SpecModel.utils) (T:=SpecModel.tables)
            Samples.pictureFrame (ascii "APIC" ++ [0; 0; 0; 21; 0; 0])
            (ascii "image/png") (ascii "art") [0; 137; 80; 78; 71; 0] 3 (Some 3) 21
            (str "image") SpecModel_latin1Helpers _ _ _ _ _ _ _ _ _)).
  - by_compute.
  - reflexivity.
  - reflexivity.
  - vm_compute. discriminate.
  - reflexivity.
  - reflexivity.
  - reflexivity.
  - by_compute.
  - by_compute.
Defined.

(** X16: text frames in ISO-8859-1.  For a text frame (identifier starting
    with [T], other than [TXXX] and [TCON]) or a people-list frame ([IPLS])
    made of a ten-byte header, the encoding byte 0 and a text, the value is
    the whole text up to the end of the frame, null bytes included. *)
Theorem text_frame_decodes `{U : Utils, T : Tables}
    (bytes header text : bytes) (mi : jsnum) (size : Z) (id tag : jsstring) :
  latin1Helpers U → is_bytes bytes →
  bytes = header ++ 0 :: text → len header = 10 →
  readBytesToUTF8 bytes (Some 4) = id →
  get bytes 9 = Some 0 →
  FrameTypeMap !! id = Some tag →
  (head id = Some (chr "T") ∧ id ≠ str "TXXX" ∧ id ≠ str "TCON") ∨ id = str "IPLS" →
  frame_tag (parseFrame bytes mi size) = Some tag
  ∧ frame_value (parseFrame bytes mi size) = VStr text.
Proof.
  intros HU Hb -> Hhead Hid Hflag Htag Hcase.
  split.
  { destruct (parseFrame_cases (header ++ 0 :: text) mi size)
      as [(_ & tg & Hid' & _ & ->)|[[?|Hno] _]]; congruence. }
  assert (Htext : readBytesToString (slice (header ++ 0 :: text) 11 None) (Some 0) None
                  = Some text).
  { destruct HU as (_ & Hall & _).
    assert (Hslice : slice (header ++ 0 :: text) 11 None = text).
    { rewrite slice_from by lia.
      replace (header ++ 0 :: text) with ((header ++ [0]) ++ text) by by rewrite <- app_assoc.
      replace (Z.to_nat 11) with (length (header ++ [0]))
        by (rewrite length_app; unfold len in *; simpl; lia).
      apply drop_app_length. }
    rewrite Hslice. apply Hall.
    apply Forall_app in Hb as [_ Hb]. by apply Forall_cons in Hb as [_ Hb]. }
  unfold parseFrame. rewrite Hid, Hflag, Htag.
  change (negb (isZero (Some 0))) with false. cbv iota. cbn [frame_value].
  rewrite (get_app_at header _ 0 10 Hhead).
  destruct Hcase as [(Hfirst & Hx & Hc)| ->].
  - unfold firstCharIs at 1. rewrite bool_decide_eq_true_2 by done.
    unfold strEq. rewrite !bool_decide_eq_false_2 by done.
    by rewrite Htext.
  - change (firstCharIs (str "IPLS") "T") with false.
    change (firstCharIs (str "IPLS") "W") with false.
    change (strEq (str "IPLS") (str "COMM")) with false.
    change (strEq (str "IPLS") (str "USLT")) with false.
    change (strEq (str "IPLS") (str "APIC")) with false.
    change (strEq (str "IPLS") (str "IPLS")) with true.
    cbv iota. cbn [orb]. by rewrite Htext.
Qed.

Lemma text_frame_decodes_witness :
  frame_value (parseFrame (U:=SpecModel.utils) (T:=SpecModel.tables)
                 Samples.wholeTitle (Some 3) 3)
  = VStr (ascii "ab").
Proof.
  refine (proj2 (text_frame_decodes (U:=SpecModel.utils) (T:=SpecModel.tables)
            Samples.wholeTitle (ascii "TIT2" ++ [0; 0; 0; 3; 0; 0]) (ascii "ab")
            (Some 3) 3 (str "TIT2") (str "title")
            SpecModel_latin1Helpers _ _ _ _ _ _ _)).
  - by_compute.
  - reflexivity.
  - reflexivity.
  - reflexivity.
  - reflexivity.
  - reflexivity.
  - left. split; [reflexivity|]. split; discriminate.
Defined.
